(** * Ruleset reader of Spectral: [src/rulesets/reader.ts]

    A shallow embedding of the ruleset resolution engine ([readRuleset],
    [processRuleset]), of the reference-resolution callbacks ([parseContent],
    [read], [shouldResolve]) and of the virtual module loader
    ([createFakeRequire]), followed by the properties the specification
    states about them.

    Conventions.
    - A JS object used as a dictionary is a [gmap string _], and [k in obj]
      is membership in the object's own keys: the keys of the loader's two
      objects are module identifiers ([./<id>.cjs] and the helper's path),
      not names of properties inherited from [Object.prototype].
    - [Object.assign(target, source)] is [source ∪ target] (stdpp's union is
      left-biased, the assignment is last-writer-wins).
    - A rejected promise or a thrown exception is [Throw e]. The shared
      visited set and the loader's cache are passed explicitly and survive
      a throw, as they do in JS; the lines given to [console.warn] are
      returned next to the outcome.
    - Recursion that the source does not bound is bounded by fuel, and
      [OutOfFuel] is a third outcome, distinct from returning and throwing. *)

From stdpp Require Import gmap strings list fin_maps.

Set Warnings "-register-all,-clear-no-such-hyp".

(** ** Values and exceptions *)

(** The untyped values that cross the loader: parsed YAML/JSON, module
    exports, the runtime helper. *)
Inductive Value : Type :=
  | VUndefined
  | VNull
  | VBool (b : bool)
  | VNum (z : Z)
  | VStr (s : string)
  | VArr (items : list Value)
  | VObj (fields : list (string * Value))
  | VFun (name : string).

(** Exceptions, by the place that creates them. [ModuleNotFound path] is
    the [new Error(`${path} does not exist`)] of [require]'s last branch;
    [Thrown] is anything a collaborator or an evaluated module throws;
    [RangeError] is the engine's answer to unbounded call depth. *)
Inductive Exn : Type :=
  | ModuleNotFound (path : string)
  | Thrown (message : string)
  | RangeError.

Definition message (e : Exn) : string :=
  match e with
  | ModuleNotFound path => path +:+ " does not exist"
  | Thrown m => m
  | RangeError => "Maximum call stack size exceeded"
  end.

Inductive Outcome (A : Type) : Type :=
  | Ok (a : A)
  | Throw (e : Exn)
  | OutOfFuel.
Arguments Ok {A} a.
Arguments Throw {A} e.
Arguments OutOfFuel {A}.

Definition succeeded {A} (o : Outcome A) : bool :=
  match o with Ok _ => true | _ => false end.

(** What a collaborator answers: it returns (its promise resolves) or it
    throws (its promise rejects). *)
Inductive Result (A : Type) : Type :=
  | Resolved (a : A)
  | Rejected (e : Exn).
Arguments Resolved {A} a.
Arguments Rejected {A} e.

Definition settle {A} (r : Result A) : Outcome A :=
  match r with Resolved a => Ok a | Rejected e => Throw e end.

(** ** Data model *)

Abbreviation FileRulesetSeverity := string (only parsing).

(** One element of [extends]: [string | [string, FileRulesetSeverity]]. *)
Inductive ExtendsEdge : Type :=
  | Plain (uri : string)
  | Forced (uri : string) (severity : FileRulesetSeverity).

(** The [extends] field: [string | Array<...>]. *)
Inductive ExtendsField : Type :=
  | ExtendsOne (uri : string)
  | ExtendsMany (edges : list ExtendsEdge).

(** One element of [functions]: [string | [string, JSONSchema]]. *)
Inductive FunctionDeclaration : Type :=
  | FnName (name : string)
  | FnWithSchema (name : string) (schema : Value).

Record Rule : Type := mkRule {
  rule_severity : option string;
  rule_formats : option (list string);
  rule_body : string
}.

Record ResolvedFunction : Type := mkFunction {
  fn_name : string;
  fn_code : string;
  fn_schema : option Value;
  fn_source : string
}.

(** The validated ruleset document ([IRulesetFile]). *)
Record FileRuleset : Type := mkFileRuleset {
  file_extends : option ExtendsField;
  file_rules : option (gmap string Rule);
  file_except : option (gmap string (list string));
  file_formats : option (list string);
  file_functions : option (list FunctionDeclaration);
  file_functionsDir : option string
}.

(** [IRuleset]: the accumulator and the result. *)
Record IRuleset : Type := mkRuleset {
  rules : gmap string Rule;
  functions : gmap string ResolvedFunction;
  exceptions : gmap string (list string)
}.

Record IRulesetReadOptions : Type := mkReadOptions {
  timeout : option nat;
  agent : option string
}.

(** The options object handed to [readParsable] and [readFile]. *)
Record IReadOptions : Type := mkFsOptions {
  ro_timeout : option nat;
  ro_encoding : string;
  ro_agent : option string
}.

Definition fsOptions (readOpts : option IRulesetReadOptions) : IReadOptions :=
  {| ro_timeout := readOpts ≫= timeout;
     ro_encoding := "utf8";
     ro_agent := readOpts ≫= agent |}.

(** ** Evaluated module code

    What [Function('require, module', source)(require, module)] can do with
    its two bindings: call [require], read or assign [module.exports],
    throw, or finish. *)
Inductive ModuleCode : Type :=
  | Finish
  | CallRequire (path : string) (k : Value → ModuleCode)
  | ReadExports (k : Value → ModuleCode)
  | AssignExports (v : Value) (k : ModuleCode)
  | ThrowError (msg : string).

(** ** Collaborators

    What [reader.ts] imports and what the JS engine provides. None of it
    is among the sources, so it is a parameter of every definition below. *)
Record Env : Type := mkEnv {
  (** [@stoplight/path] *)
  join : list string → string;
  extname : string → string;
  (** [@stoplight/yaml]'s [parse] and the engine's [JSON.parse] *)
  yaml_parse : string → Result Value;
  JSON_parse : string → Result Value;
  (** [../fs/reader] *)
  readParsable : string → IReadOptions → Result string;
  readFile : string → IReadOptions → Result string;
  (** [./finder] *)
  findFile : string → string → Result string;
  isNPMSource : string → bool;
  (** [./validation] *)
  assertValidRuleset : Value → Result FileRuleset;
  (** [json-ref-escodegen]: from the entry locator and the [read] and
      [shouldResolve] callbacks, the entry module's id and the calls of
      [write(target, content)] in order *)
  generate : string → (string → Result Value) → (string → bool) →
             Result (string * list (string * string));
  (** [json-ref-escodegen/runtime/create-array.cjs] *)
  createArray : Value;
  (** the engine's [Function('require, module', source)]: what running the
      source text does with its two bindings *)
  Function_ : string → ModuleCode;
  (** how [mergeExceptions] rewrites a target pattern for a scope base *)
  relativeTo : string → string → string;
  (** the order in which the reads started by [Promise.all] settle *)
  completionOrder : list FunctionDeclaration → list FunctionDeclaration;
  (** the engine's bound on nested calls *)
  stackDepth : nat
}.

(** ** [parseContent], [read], [shouldResolve] *)

(** [String.prototype.endsWith]. *)
Definition endsWith (s suffix : string) : bool :=
  let n := String.length s in
  let m := String.length suffix in
  bool_decide (m ≤ n)%nat && bool_decide (String.substring (n - m)%nat m s = suffix).

Definition parseContent (E : Env) (content source : string) : Result Value :=
  if bool_decide (extname E source = ".json") then JSON_parse E content
  else yaml_parse E content.

Definition oas2_schema : string := "oas/schemas/schema.oas2.json".
Definition oas3_schema : string := "oas/schemas/schema.oas3.json".

Definition read (E : Env) (readOpts : option IRulesetReadOptions)
    (source : string) : Result Value :=
  match readParsable E source (fsOptions readOpts) with
  | Resolved content =>
      if negb (endsWith source oas2_schema) && negb (endsWith source oas3_schema)
      then parseContent E content source
      else Resolved (VStr content)
  | Rejected e => Rejected e
  end.

Definition shouldResolve (source : string) : bool :=
  negb (endsWith source oas2_schema) && negb (endsWith source oas3_schema).

(** ** [createFakeRequire] *)

Definition create_array_cjs : string :=
  "json-ref-escodegen/runtime/create-array.cjs".

(** The closure's state: [evaluatedModules], and (ghost) the identifiers
    whose source text has been run, most recent first. *)
Record LoaderState : Type := mkLoader {
  evaluatedModules : gmap string Value;
  evaluations : list string
}.

(** [createFakeRequire(availableModules)] creates the closure; this is its
    state at creation, and [require] below is the function it returns. *)
Definition createFakeRequire (E : Env) : LoaderState :=
  {| evaluatedModules := {[ create_array_cjs := createArray E ]};
     evaluations := [] |}.

Definition set_exports (path : string) (v : Value) (st : LoaderState) : LoaderState :=
  {| evaluatedModules := <[path := v]> (evaluatedModules st);
     evaluations := evaluations st |}.

Definition get_exports (path : string) (st : LoaderState) : Value :=
  default VUndefined (evaluatedModules st !! path).

Definition note_evaluation (path : string) (st : LoaderState) : LoaderState :=
  {| evaluatedModules := evaluatedModules st;
     evaluations := path :: evaluations st |}.

(** Running the body of module [path]; [req] is the [require] binding. *)
Fixpoint run (req : string → LoaderState → Outcome Value * LoaderState)
    (path : string) (code : ModuleCode) (st : LoaderState)
    : Outcome unit * LoaderState :=
  match code with
  | Finish => (Ok (), st)
  | CallRequire dep k =>
      match req dep st with
      | (Ok v, st') => run req path (k v) st'
      | (Throw e, st') => (Throw e, st')
      | (OutOfFuel, st') => (OutOfFuel, st')
      end
  | ReadExports k => run req path (k (get_exports path st)) st
  | AssignExports v k => run req path k (set_exports path v st)
  | ThrowError msg => (Throw (Thrown msg), st)
  end.

(** The returned [require]. Fuel bounds the nesting of module evaluations
    only: a cached or unknown identifier is answered with no fuel at all. *)
Fixpoint require (E : Env) (availableModules : gmap string string)
    (fuel : nat) (path : string) (st : LoaderState)
    : Outcome Value * LoaderState :=
  match evaluatedModules st !! path with
  | Some v => (Ok v, st)
  | None =>
      match availableModules !! path with
      | Some source =>
          match fuel with
          | O => (OutOfFuel, st)
          | S fuel' =>
              match run (require E availableModules fuel') path
                        (Function_ E source) (note_evaluation path st) with
              | (Ok _, st') => (Ok (get_exports path st'), st')
              | (Throw e, st') => (Throw e, st')
              | (OutOfFuel, st') => (OutOfFuel, st')
              end
          end
      | None => (Throw (ModuleNotFound path), st)
      end
  end.

(** ** Merge engine ([./mergers], [./mergers/exceptions]) *)

Definition withSeverity (severity : FileRulesetSeverity) (r : Rule) : Rule :=
  match rule_severity r with
  | Some _ => r
  | None => {| rule_severity := Some severity;
               rule_formats := rule_formats r;
               rule_body := rule_body r |}
  end.

(** Modelled from the spec: [mergeRules] of [src/rulesets/mergers], which is
    not among the sources. It writes every incoming rule into the target,
    with [severity] as the severity of the rules that do not pin their own;
    last writer wins per key. *)
Definition mergeRules (target incoming : gmap string Rule)
    (severity : FileRulesetSeverity) : gmap string Rule :=
  (withSeverity severity <$> incoming) ∪ target.

Definition withFormats (formats : list string) (r : Rule) : Rule :=
  {| rule_severity := rule_severity r;
     rule_formats := Some formats;
     rule_body := rule_body r |}.

(** Modelled from the spec: [mergeFormats] of [src/rulesets/mergers], which
    is not among the sources. It annotates the rules already present with
    the format filter. *)
Definition mergeFormats (target : gmap string Rule) (formats : list string)
    : gmap string Rule :=
  withFormats formats <$> target.

(** Modelled from the spec: [mergeFunctions] of [src/rulesets/mergers], which
    is not among the sources. It unions the function tables, last writer
    wins per key; the rule table is only consulted. *)
Definition mergeFunctions (target incoming : gmap string ResolvedFunction)
    (_ : gmap string Rule) : gmap string ResolvedFunction :=
  incoming ∪ target.

(** Modelled from the spec: [mergeExceptions] of
    [src/rulesets/mergers/exceptions], which is not among the sources. It
    unions the exception entries after rewriting each incoming target
    pattern relative to the scope base; last writer wins per key. *)
Definition mergeExceptions (E : Env) (target incoming : gmap string (list string))
    (scopeBase : string) : gmap string (list string) :=
  kmap (relativeTo E scopeBase) incoming ∪ target.

(** [Object.assign(target, source)]. *)
Definition Object_assign {V} (target source : gmap string V) : gmap string V :=
  source ∪ target.

(** ** Effects of the resolver

    [processedRulesets] is the one object shared by every call of one
    [readRuleset]: a call receives the set and returns it as it has left
    it. The lines written with [console.warn] are returned next to it,
    oldest first. *)
Abbreviation Step A := (Outcome A * gset string * list string)%type (only parsing).

(** ** Loading one document (lines 60-90) *)

Definition written (writes : list (string * string)) : gmap string string :=
  foldl (λ output w, <[w.1 := w.2]> output) ∅ writes.

(** [generate], then [createFakeRequire(output)(`./${id}.cjs`)], then
    [assertValidRuleset]. The loader runs with the engine's call depth, and
    running out of it is the engine's [RangeError]. *)
Definition loadRuleset (E : Env) (readOpts : option IRulesetReadOptions)
    (rulesetUri : string) : Result FileRuleset :=
  match generate E rulesetUri (read E readOpts) shouldResolve with
  | Rejected e => Rejected e
  | Resolved (id, writes) =>
      match require E (written writes) (stackDepth E)
                    ("./" +:+ id +:+ ".cjs") (createFakeRequire E) with
      | (Ok v, _) => assertValidRuleset E v
      | (Throw e, _) => Rejected e
      | (OutOfFuel, _) => Rejected RangeError
      end
  end.

(** ** Extends edges (lines 103-121) *)

Definition extendsEdges (x : option ExtendsField) : list ExtendsEdge :=
  match x with
  | None => []
  | Some (ExtendsOne uri) => [Plain uri]
  | Some (ExtendsMany edges) => edges
  end.

Definition edgeUri (extended : ExtendsEdge) : string :=
  match extended with
  | Plain uri => uri
  | Forced uri _ => uri
  end.

(** [parentSeverity] of lines 108 and 111. *)
Definition parentSeverity (severity : option FileRulesetSeverity)
    (extended : ExtendsEdge) : FileRulesetSeverity :=
  match extended with
  | Forced _ edgeSeverity =>
      match severity with None => edgeSeverity | Some s => s end
  | Plain _ =>
      match severity with None => "recommended" | Some s => s end
  end.

(** Lines 116-118. *)
Definition mergeExtended (E : Env) (baseUri : string) (acc extendedRuleset : IRuleset)
    (parent : FileRulesetSeverity) : IRuleset :=
  {| rules := mergeRules (rules acc) (rules extendedRuleset) parent;
     functions := Object_assign (functions acc) (functions extendedRuleset);
     exceptions := mergeExceptions E (exceptions acc) (exceptions extendedRuleset) baseUri |}.

Abbreviation Processor :=
  (string → string → option string → gset string →
   Outcome (option IRuleset) * gset string * list string) (only parsing).

(** The [for] loop over the edges; [self] is the recursive [processRuleset]. *)
Fixpoint processExtends (E : Env) (self : Processor)
    (baseUri rulesetUri : string) (severity : option FileRulesetSeverity)
    (extendeds : list ExtendsEdge) (acc : IRuleset) (processed : gset string)
    : Step IRuleset :=
  match extendeds with
  | [] => (Ok acc, processed, [])
  | extended :: rest =>
      let parent := parentSeverity severity extended in
      match self rulesetUri (edgeUri extended) (Some parent) processed with
      | (Ok extendedRuleset, processed', w) =>
          let acc' :=
            match extendedRuleset with
            | Some ext => mergeExtended E baseUri acc ext parent
            | None => acc
            end in
          match processExtends E self baseUri rulesetUri severity rest acc' processed' with
          | (o, processed'', w') => (o, processed'', w ++ w')
          end
      | (Throw e, processed', w) => (Throw e, processed', w)
      | (OutOfFuel, processed', w) => (OutOfFuel, processed', w)
      end
  end.

(** ** Custom functions (lines 135-167) *)

Definition fnName (fn : FunctionDeclaration) : string :=
  match fn with FnName name => name | FnWithSchema name _ => name end.

Definition fnSchema (fn : FunctionDeclaration) : option Value :=
  match fn with FnName _ => None | FnWithSchema _ schema => Some schema end.

Definition rulesetFunctionsBaseDir (E : Env) (rulesetUri : string)
    (functionsDir : option string) : string :=
  join E [rulesetUri;
          if isNPMSource E rulesetUri then "." else "..";
          match functionsDir with Some dir => dir | None => "functions" end].

Definition functionFile (name : string) : string := "./" +:+ name +:+ ".js".

Definition loadWarning (name : string) (ex : Exn) : string :=
  "Function '" +:+ name +:+ "' could not be loaded: " +:+ message ex.

(** What the closures of [Promise.all] have done so far: the table
    [resolvedFunctions], the warnings, and the first rejection. *)
Record Binder : Type := mkBinder {
  resolvedFunctions : gmap string ResolvedFunction;
  warnings : list string;
  rejection : option Exn
}.

(** One closure of [rulesetFunctions.map(async fn => ...)]. [findFile] is
    awaited before the [try]; only [readFile] is inside it. *)
Definition bindFunction (E : Env) (readOpts : option IRulesetReadOptions)
    (baseDir : string) (b : Binder) (fn : FunctionDeclaration) : Binder :=
  match findFile E baseDir (functionFile (fnName fn)) with
  | Rejected e =>
      {| resolvedFunctions := resolvedFunctions b;
         warnings := warnings b;
         rejection := match rejection b with Some e0 => Some e0 | None => Some e end |}
  | Resolved source =>
      match readFile E source (fsOptions readOpts) with
      | Resolved code =>
          {| resolvedFunctions :=
               <[fnName fn := {| fn_name := fnName fn; fn_code := code;
                                 fn_schema := fnSchema fn; fn_source := source |}]>
                 (resolvedFunctions b);
             warnings := warnings b;
             rejection := rejection b |}
      | Rejected ex =>
          {| resolvedFunctions := resolvedFunctions b;
             warnings := warnings b ++ [loadWarning (fnName fn) ex];
             rejection := rejection b |}
      end
  end.

(** [Promise.all] over the closures, taken in the order in which the
    environment lets them settle. *)
Definition bindFunctions (E : Env) (readOpts : option IRulesetReadOptions)
    (baseDir : string) (settled : list FunctionDeclaration) : Binder :=
  foldl (bindFunction E readOpts baseDir)
        {| resolvedFunctions := ∅; warnings := []; rejection := None |} settled.

(** ** The ruleset's own fields (lines 123-169) *)

Definition ownSeverity (severity : option FileRulesetSeverity) : FileRulesetSeverity :=
  match severity with None => "recommended" | Some s => s end.

Definition annotated (formats : option (list string)) (r : Rule) : Rule :=
  match formats with
  | Some f => withFormats f r
  | None => r
  end.

(** Lines 123-133: the rule table after the ruleset's own rules and
    formats. *)
Definition ownRules (ruleset : FileRuleset) (severity : option FileRulesetSeverity)
    (inherited : gmap string Rule) : gmap string Rule :=
  let rules1 :=
    match file_rules ruleset with
    | Some own => mergeRules inherited own (ownSeverity severity)
    | None => inherited
    end in
  match file_formats ruleset with
  | Some formats => mergeFormats rules1 formats
  | None => rules1
  end.

Definition ownExceptions (E : Env) (baseUri : string) (ruleset : FileRuleset)
    (inherited : gmap string (list string)) : gmap string (list string) :=
  match file_except ruleset with
  | Some except => mergeExceptions E inherited except baseUri
  | None => inherited
  end.

Definition processOwn (E : Env) (readOpts : option IRulesetReadOptions)
    (baseUri rulesetUri : string) (severity : option FileRulesetSeverity)
    (ruleset : FileRuleset) (acc : IRuleset)
    : Outcome IRuleset * list string :=
  let rules' := ownRules ruleset severity (rules acc) in
  let exceptions' := ownExceptions E baseUri ruleset (exceptions acc) in
  match file_functions ruleset with
  | None =>
      (Ok {| rules := rules'; functions := functions acc; exceptions := exceptions' |}, [])
  | Some rulesetFunctions =>
      let b := bindFunctions E readOpts
                 (rulesetFunctionsBaseDir E rulesetUri (file_functionsDir ruleset))
                 (completionOrder E rulesetFunctions) in
      match rejection b with
      | Some e => (Throw e, warnings b)
      | None =>
          (Ok {| rules := rules';
                 functions := mergeFunctions (functions acc) (resolvedFunctions b) rules';
                 exceptions := exceptions' |}, warnings b)
      end
  end.

(** ** [processRuleset] *)

Definition emptyRuleset : IRuleset :=
  {| rules := ∅; functions := ∅; exceptions := ∅ |}.

(** Lines 60-169, once the identity is known to be new: [processed] already
    holds [rulesetUri]. *)
Definition resolveNew (E : Env) (readOpts : option IRulesetReadOptions)
    (self : Processor) (baseUri rulesetUri : string)
    (severity : option FileRulesetSeverity) (processed : gset string)
    : Step (option IRuleset) :=
  match loadRuleset E readOpts rulesetUri with
  | Rejected e => (Throw e, processed, [])
  | Resolved ruleset =>
      match processExtends E self baseUri rulesetUri severity
              (extendsEdges (file_extends ruleset)) emptyRuleset processed with
      | (Ok acc, processed', w) =>
          match processOwn E readOpts baseUri rulesetUri severity ruleset acc with
          | (Ok newRuleset, w') => (Ok (Some newRuleset), processed', w ++ w')
          | (Throw e, w') => (Throw e, processed', w ++ w')
          | (OutOfFuel, w') => (OutOfFuel, processed', w ++ w')
          end
      | (Throw e, processed', w) => (Throw e, processed', w)
      | (OutOfFuel, processed', w) => (OutOfFuel, processed', w)
      end
  end.

Fixpoint processRuleset (E : Env) (readOpts : option IRulesetReadOptions)
    (fuel : nat) (baseUri uri : string) (severity : option FileRulesetSeverity)
    (processed : gset string) : Step (option IRuleset) :=
  match fuel with
  | O => (OutOfFuel, processed, [])
  | S fuel' =>
      match findFile E (join E [baseUri; ".."]) uri with
      | Rejected e => (Throw e, processed, [])
      | Resolved rulesetUri =>
          if decide (rulesetUri ∈ processed) then (Ok None, processed, [])
          else
            resolveNew E readOpts (processRuleset E readOpts fuel')
              baseUri rulesetUri severity ({[rulesetUri]} ∪ processed)
      end
  end.

(** ** [readRuleset] *)

(** [uris: string | string[]]. *)
Inductive Uris : Type :=
  | OneUri (uri : string)
  | ManyUris (uris : list string).

(** Iteration order of [new Set([...uris])]: first occurrences. *)
Fixpoint setOrder (seen : gset string) (uris : list string) : list string :=
  match uris with
  | [] => []
  | uri :: rest =>
      if decide (uri ∈ seen) then setOrder seen rest
      else uri :: setOrder ({[uri]} ∪ seen) rest
  end.

Definition requested (uris : Uris) : list string :=
  match uris with
  | OneUri uri => [uri]
  | ManyUris l => setOrder ∅ l
  end.

Definition assignRuleset (base resolvedRuleset : IRuleset) : IRuleset :=
  {| rules := Object_assign (rules base) (rules resolvedRuleset);
     functions := Object_assign (functions base) (functions resolvedRuleset);
     exceptions := Object_assign (exceptions base) (exceptions resolvedRuleset) |}.

(** Lines 40-43: [null] is skipped. *)
Definition assignResolved (base : IRuleset) (resolvedRuleset : option IRuleset)
    : IRuleset :=
  match resolvedRuleset with
  | Some r => assignRuleset base r
  | None => base
  end.


(** One top-level URI, with [processedRulesets] cleared (lines 38-39). *)
Definition resolveTop (E : Env) (readOpts : option IRulesetReadOptions)
    (fuel : nat) (uri : string) : Step (option IRuleset) :=
  processRuleset E readOpts fuel uri uri None ∅.

(** The [for] loop of lines 37-44. *)
Fixpoint readEach (E : Env) (readOpts : option IRulesetReadOptions) (fuel : nat)
    (uris : list string) (base : IRuleset) : Outcome IRuleset * list string :=
  match uris with
  | [] => (Ok base, [])
  | uri :: rest =>
      match resolveTop E readOpts fuel uri with
      | (Ok resolvedRuleset, _, w) =>
          match readEach E readOpts fuel rest (assignResolved base resolvedRuleset) with
          | (o, w') => (o, w ++ w')
          end
      | (Throw e, _, w) => (Throw e, w)
      | (OutOfFuel, _, w) => (OutOfFuel, w)
      end
  end.

Definition readRuleset (E : Env) (fuel : nat) (uris : Uris)
    (readOpts : option IRulesetReadOptions) : Outcome IRuleset * list string :=
  readEach E readOpts fuel (requested uris) emptyRuleset.

(** What a resolution contributes: its tables, none when it returned [null]
    or did not return. *)
Definition contributed (o : Outcome (option IRuleset)) : IRuleset :=
  match o with
  | Ok (Some r) => r
  | _ => emptyRuleset
  end.

Definition returned (o : Outcome IRuleset) : IRuleset :=
  match o with
  | Ok r => r
  | _ => emptyRuleset
  end.

(** ** Excluded schema locators

    A locator that has one of the two schema paths as a literal suffix. *)
Definition excludedSchema (source : string) : Prop :=
  ∃ prefix, source = prefix +:+ oas2_schema ∨ source = prefix +:+ oas3_schema.

(** ** Loader states

    The states the closure of [createFakeRequire(availableModules)] passes
    through, also in the middle of an evaluation: the helper stays in the
    cache, and whatever else is cached was evaluated from [availableModules]. *)
Definition consistent (E : Env) (availableModules : gmap string string)
    (st : LoaderState) : Prop :=
  evaluatedModules st !! create_array_cjs = Some (createArray E) ∧
  ∀ path, is_Some (evaluatedModules st !! path) →
          path = create_array_cjs ∨ is_Some (availableModules !! path).

(** ** What one declaration does to the binder

    The three things a closure of [Promise.all] can end in, read off
    [bindFunction]: a warning, a rejection, or an entry. *)
Definition unreadable (E : Env) (readOpts : option IRulesetReadOptions)
    (baseDir : string) (fn : FunctionDeclaration) : option string :=
  match findFile E baseDir (functionFile (fnName fn)) with
  | Resolved source =>
      match readFile E source (fsOptions readOpts) with
      | Rejected ex => Some (loadWarning (fnName fn) ex)
      | Resolved _ => None
      end
  | Rejected _ => None
  end.

Definition unlocated (E : Env) (baseDir : string) (fn : FunctionDeclaration)
    : option Exn :=
  match findFile E baseDir (functionFile (fnName fn)) with
  | Rejected e => Some e
  | Resolved _ => None
  end.

Definition entryOf (E : Env) (readOpts : option IRulesetReadOptions)
    (baseDir : string) (fn : FunctionDeclaration) : option ResolvedFunction :=
  match findFile E baseDir (functionFile (fnName fn)) with
  | Resolved source =>
      match readFile E source (fsOptions readOpts) with
      | Resolved code =>
          Some {| fn_name := fnName fn; fn_code := code;
                  fn_schema := fnSchema fn; fn_source := source |}
      | Rejected _ => None
      end
  | Rejected _ => None
  end.

(** What a request may add to the record of evaluations: identifiers of
    generated sources that were not cached when the request was made. *)
Definition ranOnlyFrom (availableModules : gmap string string)
    (st : LoaderState) (new : list string) : Prop :=
  ∀ p, p ∈ new →
    is_Some (availableModules !! p) ∧ evaluatedModules st !! p = None.


(** The edge without its severity. *)
Definition plainEdge (extended : ExtendsEdge) : ExtendsEdge := Plain (edgeUri extended).

(** The identifier under which [processRuleset] requests a document's entry
    module. *)
Definition entryModule (id : string) : string := "./" +:+ id +:+ ".cjs".

(** ** A small concrete world

    Documents are named by their locator; [generate] writes one module per
    document whose source text is the locator, the module exports that
    string, and validation looks the document up. *)
Module Demo.

Definition rule_b : Rule := mkRule (Some "warn") None "given-by-b".
Definition rule_c : Rule := mkRule (Some "error") None "given-by-c".
Definition rule_e : Rule := mkRule (Some "hint") None "given-by-e".
Definition rule_x : Rule := mkRule None None "given-by-x".
Definition rule_y : Rule := mkRule None None "given-by-y".

Definition leaf (own : gmap string Rule) : FileRuleset :=
  mkFileRuleset None (Some own) None None None None.

Definition extending (edges : list ExtendsEdge) (own : gmap string Rule)
    : FileRuleset :=
  mkFileRuleset (Some (ExtendsMany edges)) (Some own) None None None None.

Definition withFunctions (fns : list FunctionDeclaration) : FileRuleset :=
  mkFileRuleset None None None None (Some fns) None.

Definition documents : list (string * FileRuleset) :=
  [ ("a.yaml", extending [Plain "b.yaml"; Plain "c.yaml"] ∅);
    ("b.yaml", leaf {[ "r" := rule_b ]});
    ("c.yaml", leaf {[ "r" := rule_c ]});
    ("d.yaml", extending [Plain "e.yaml"; Plain "c.yaml"] ∅);
    ("e.yaml", extending [Plain "c.yaml"] {[ "r" := rule_e ]});
    ("x.yaml", extending [Plain "y.yaml"] {[ "rx" := rule_x ]});
    ("y.yaml", extending [Forced "x.yaml" "off"] {[ "ry" := rule_y ]});
    ("self.yaml", extending [Plain "self.yaml"] {[ "rx" := rule_x ]});
    ("f.yaml", withFunctions [FnName "f1"; FnName "f2"]);
    ("g.yaml", withFunctions [FnName "f1"; FnName "lost"]) ].

Definition document (uri : string) : option FileRuleset :=
  (list_to_map documents : gmap string FileRuleset) !! uri.

Definition known : gset string :=
  dom (list_to_map documents : gmap string FileRuleset).

Definition notFound (what : string) : Exn := Thrown (what +:+ " not found").

Definition isFunctionFile (to : string) : bool :=
  bool_decide (String.substring 0 2 to = "./").

Definition env : Env :=
  {| join := String.concat "/";
     extname := λ source,
       if endsWith source ".json" then ".json" else ".yaml";
     yaml_parse := λ content, Resolved (VStr content);
     JSON_parse := λ content, Resolved (VObj [("json", VStr content)]);
     readParsable := λ source _, Resolved ("text of " +:+ source);
     readFile := λ source _,
       if endsWith source "f2.js" then Rejected (Thrown "EACCES")
       else Resolved ("code of " +:+ source);
     findFile := λ from to,
       if isFunctionFile to then
         if bool_decide (to = "./lost.js") then Rejected (notFound to)
         else Resolved (from +:+ "/" +:+ to)
       else match document to with
            | Some _ => Resolved to
            | None => Rejected (notFound to)
            end;
     isNPMSource := λ uri, bool_decide (String.substring 0 18 uri = "https://unpkg.com/");
     assertValidRuleset := λ v,
       match v with
       | VStr uri =>
           match document uri with
           | Some d => Resolved d
           | None => Rejected (Thrown "invalid ruleset")
           end
       | _ => Rejected (Thrown "invalid ruleset")
       end;
     generate := λ uri _ _, Resolved (uri, [("./" +:+ uri +:+ ".cjs", uri)]);
     createArray := VFun "createArray";
     Function_ := λ source, AssignExports (VStr source) Finish;
     relativeTo := λ base pattern, pattern;
     completionOrder := λ fns, fns;
     stackDepth := 8 |}.

End Demo.

(** ** A world whose generated modules require themselves

    As [Demo.env], except that the source text of a module starts by
    requiring the module itself, and that the module of [quiet.yaml] finishes
    without assigning its exports. *)
Module Loops.

Definition env : Env :=
  {| join := join Demo.env;
     extname := extname Demo.env;
     yaml_parse := yaml_parse Demo.env;
     JSON_parse := JSON_parse Demo.env;
     readParsable := readParsable Demo.env;
     readFile := readFile Demo.env;
     findFile := findFile Demo.env;
     isNPMSource := isNPMSource Demo.env;
     assertValidRuleset := assertValidRuleset Demo.env;
     generate := generate Demo.env;
     createArray := createArray Demo.env;
     Function_ := λ source,
       if bool_decide (source = "quiet.yaml") then Finish
       else CallRequire (entryModule source) (λ v, AssignExports v Finish);
     relativeTo := relativeTo Demo.env;
     completionOrder := completionOrder Demo.env;
     stackDepth := stackDepth Demo.env |}.

(** As [Demo.env], except that [generate] writes no module at all. *)
Definition silent : Env :=
  {| join := join Demo.env;
     extname := extname Demo.env;
     yaml_parse := yaml_parse Demo.env;
     JSON_parse := JSON_parse Demo.env;
     readParsable := readParsable Demo.env;
     readFile := readFile Demo.env;
     findFile := findFile Demo.env;
     isNPMSource := isNPMSource Demo.env;
     assertValidRuleset := assertValidRuleset Demo.env;
     generate := λ uri _ _, Resolved (uri, []);
     createArray := createArray Demo.env;
     Function_ := Function_ Demo.env;
     relativeTo := relativeTo Demo.env;
     completionOrder := completionOrder Demo.env;
     stackDepth := stackDepth Demo.env |}.

End Loops.

(** * Properties *)

(** ** The virtual module loader *)

Section loader.
Context (E : Env) (availableModules : gmap string string).

Lemma createFakeRequire_consistent :
  consistent E availableModules (createFakeRequire E).
Proof.
  split; simpl.
  - apply lookup_singleton_eq.
  - intros path [v Hv]. apply lookup_singleton_Some in Hv as [-> _]. by left.
Qed.




(** An exception built by [require]'s last branch names an identifier
    that is not among the generated sources, however deep the request
    that raised it. *)
Lemma run_not_found_origin req path code st q :
  (∀ dep st0, (req dep st0).1 = Throw (ModuleNotFound q) →
              availableModules !! q = None) →
  (run req path code st).1 = Throw (ModuleNotFound q) →
  availableModules !! q = None.
Proof.
  intros Hreq. revert st.
  induction code as [|dep k IH|k IH|v k IH|msg]; intros st; simpl; try done.
  - specialize (Hreq dep st).
    destruct (req dep st) as [[v|e|] st']; simpl in *;
      [apply IH | intros [= ->]; by apply Hreq | done].
  - apply IH.
  - apply IH.
Qed.

Lemma require_not_found_origin fuel path st q :
  (require E availableModules fuel path st).1 = Throw (ModuleNotFound q) →
  availableModules !! q = None.
Proof.
  revert path st. induction fuel as [|fuel IH]; intros path st; simpl.
  - destruct (evaluatedModules st !! path); [done|].
    destruct (availableModules !! path) eqn:Havail; [done|].
    simpl. by intros [= <-].
  - destruct (evaluatedModules st !! path); [done|].
    destruct (availableModules !! path) as [source|] eqn:Havail.
    + pose proof (run_not_found_origin (require E availableModules fuel) path
                    (Function_ E source) (note_evaluation path st) q
                    (λ dep st0, IH dep st0)) as Hrun.
      destruct (run _ _ _ _) as [[[]|e|] st']; simpl in *;
        [done | intros [= ->]; by apply Hrun | done].
    + simpl. by intros [= <-].
Qed.



End loader.

(** ** Reading referenced sources *)

Section strings.

Lemma substring_whole s : String.substring 0 (String.length s) s = s.
Proof. induction s as [|c s IH]; simpl; [done | by rewrite IH]. Qed.

Lemma substring_skip_prefix prefix s m :
  String.substring (String.length prefix) m (prefix +:+ s) = String.substring 0 m s.
Proof. induction prefix as [|c prefix IH]; simpl; [done | apply IH]. Qed.

Lemma length_append_string s1 s2 :
  String.length (s1 +:+ s2) = String.length s1 + String.length s2.
Proof. induction s1 as [|c s1 IH]; simpl; [done | by rewrite IH]. Qed.

Lemma split_string s k :
  k ≤ String.length s →
  s = String.substring 0 k s +:+ String.substring k (String.length s - k) s.
Proof.
  revert k. induction s as [|c s IH]; intros k Hk; simpl in *.
  - by destruct k.
  - destruct k as [|k]; simpl.
    + by rewrite substring_whole.
    + rewrite (IH k) at 1 by lia. done.
Qed.

Lemma endsWith_suffix s suffix :
  endsWith s suffix = true ↔ ∃ prefix, s = prefix +:+ suffix.
Proof.
  unfold endsWith. rewrite andb_true_iff, !bool_decide_eq_true. split.
  - intros [Hle Hsub].
    exists (String.substring 0 (String.length s - String.length suffix) s).
    pose proof (split_string s (String.length s - String.length suffix)
                  (ltac:(lia))) as Hsplit.
    replace (String.length s - (String.length s - String.length suffix))
      with (String.length suffix) in Hsplit by lia.
    by rewrite Hsub in Hsplit.
  - intros [prefix ->]. rewrite length_append_string. split; [lia|].
    replace (String.length prefix + String.length suffix - String.length suffix)
      with (String.length prefix) by lia.
    rewrite substring_skip_prefix. apply substring_whole.
Qed.

Lemma shouldResolve_excluded source :
  shouldResolve source = false ↔ excludedSchema source.
Proof.
  unfold shouldResolve, excludedSchema.
  rewrite andb_false_iff, !negb_false_iff, !endsWith_suffix. split.
  - intros [[prefix ->]|[prefix ->]]; exists prefix; auto.
  - intros [prefix [->| ->]]; [left|right]; by exists prefix.
Qed.

End strings.

(** C8: when [readParsable] has produced the content of a source,
    [read] returns that text itself, unparsed, and [shouldResolve] answers
    no, if the locator ends with one of the two schema suffixes; for any
    other locator [shouldResolve] answers yes and [read] is the JSON parse of
    the content when the locator's extension is [.json] and its YAML parse
    otherwise. *)
Theorem read_verbatim_or_parsed (E : Env) (readOpts : option IRulesetReadOptions)
    (source content : string) :
  readParsable E source (fsOptions readOpts) = Resolved content →
  oas2_schema = "oas/schemas/schema.oas2.json" ∧
  oas3_schema = "oas/schemas/schema.oas3.json" ∧
  (excludedSchema source →
     read E readOpts source = Resolved (VStr content) ∧
     shouldResolve source = false) ∧
  (¬ excludedSchema source →
     shouldResolve source = true ∧
     (extname E source = ".json" →
        read E readOpts source = JSON_parse E content) ∧
     (extname E source ≠ ".json" →
        read E readOpts source = yaml_parse E content)).
Proof.
  intros Hread. split; [done|]. split; [done|].
  unfold read. rewrite Hread. fold (shouldResolve source). split.
  - intros Hex. apply shouldResolve_excluded in Hex. by rewrite Hex.
  - intros Hex. rewrite <- shouldResolve_excluded in Hex.
    apply not_false_is_true in Hex. rewrite Hex. split; [done|].
    unfold parseContent. split; intros Hext.
    + by rewrite bool_decide_eq_true_2.
    + by rewrite bool_decide_eq_false_2.
Qed.

(** ** Severity inheritance *)



(** ** The cycle guard *)

Section guard.
Context (E : Env) (readOpts : option IRulesetReadOptions).

Lemma processOwn_returns baseUri rulesetUri severity ruleset acc :
  (processOwn E readOpts baseUri rulesetUri severity ruleset acc).1 ≠ OutOfFuel.
Proof.
  unfold processOwn. destruct (file_functions ruleset); [|done].
  by destruct (rejection _).
Qed.

Lemma processExtends_grows self baseUri rulesetUri severity extendeds acc processed :
  (∀ b u s visited, visited ⊆ (self b u s visited).1.2) →
  processed ⊆ (processExtends E self baseUri rulesetUri severity extendeds acc processed).1.2.
Proof.
  intros Hself. revert acc processed.
  induction extendeds as [|extended rest IH]; intros acc processed; simpl; [done|].
  pose proof (Hself rulesetUri (edgeUri extended)
                (Some (parentSeverity severity extended)) processed) as Hstep.
  destruct (self _ _ _ _) as [[[ext|e|] processed'] w]; simpl in *; [|done|done].
  match goal with
  | |- context [processExtends E self baseUri rulesetUri severity rest ?a ?p] =>
      pose proof (IH a p) as Hrest;
      destruct (processExtends E self baseUri rulesetUri severity rest a p)
        as [[o processed''] w']
  end.
  simpl in *. set_solver.
Qed.

Lemma resolveNew_grows self baseUri rulesetUri severity processed :
  (∀ b u s visited, visited ⊆ (self b u s visited).1.2) →
  processed ⊆ (resolveNew E readOpts self baseUri rulesetUri severity processed).1.2.
Proof.
  intros Hself. unfold resolveNew.
  destruct (loadRuleset E readOpts rulesetUri) as [ruleset|e]; [|done].
  pose proof (processExtends_grows self baseUri rulesetUri severity
                (extendsEdges (file_extends ruleset)) emptyRuleset processed Hself)
    as Hloop.
  destruct (processExtends _ _ _ _ _ _ _ _) as [[[acc|e|] processed'] w];
    simpl in *; [|done|done].
  by destruct (processOwn _ _ _ _ _ _ _) as [[new|e|] w'].
Qed.

Lemma processRuleset_grows fuel baseUri uri severity processed :
  processed ⊆ (processRuleset E readOpts fuel baseUri uri severity processed).1.2.
Proof.
  revert baseUri uri severity processed.
  induction fuel as [|fuel IH]; intros baseUri uri severity processed; simpl; [done|].
  destruct (findFile E _ uri) as [rulesetUri|e]; [|done].
  case_decide; [done|].
  pose proof (resolveNew_grows (processRuleset E readOpts fuel) baseUri
                rulesetUri severity ({[rulesetUri]} ∪ processed) IH).
  set_solver.
Qed.

Lemma processRuleset_known fuel baseUri uri severity processed rulesetUri :
  findFile E (join E [baseUri; ".."]) uri = Resolved rulesetUri →
  processRuleset E readOpts (S fuel) baseUri uri severity processed =
    if decide (rulesetUri ∈ processed) then (Ok None, processed, [])
    else resolveNew E readOpts (processRuleset E readOpts fuel) baseUri rulesetUri
           severity ({[rulesetUri]} ∪ processed).
Proof. intros Hfound. simpl. by rewrite Hfound. Qed.

Section finite.
Context (documents : gset string).
Hypothesis loadable :
  ∀ uri ruleset, loadRuleset E readOpts uri = Resolved ruleset → uri ∈ documents.

Lemma processExtends_fuel self n baseUri rulesetUri severity extendeds acc processed :
  (∀ b u s visited, visited ⊆ (self b u s visited).1.2) →
  (∀ b u s visited, size (documents ∖ visited) < n →
                    (self b u s visited).1.1 ≠ OutOfFuel) →
  size (documents ∖ processed) < n →
  (processExtends E self baseUri rulesetUri severity extendeds acc processed).1.1
    ≠ OutOfFuel.
Proof.
  intros Hgrow Hself. revert acc processed.
  induction extendeds as [|extended rest IH]; intros acc processed Hsize;
    simpl; [done|].
  pose proof (Hself rulesetUri (edgeUri extended)
                (Some (parentSeverity severity extended)) processed Hsize) as Hret.
  pose proof (Hgrow rulesetUri (edgeUri extended)
                (Some (parentSeverity severity extended)) processed) as Hsub.
  destruct (self _ _ _ _) as [[[ext|e|] processed'] w]; simpl in *; [|done|done].
  assert (size (documents ∖ processed') < n) as Hsize'.
  { eapply Nat.le_lt_trans; [|exact Hsize].
    apply subseteq_size. by apply difference_mono_l. }
  match goal with
  | |- context [processExtends E self baseUri rulesetUri severity rest ?a ?p] =>
      pose proof (IH a p Hsize') as Hrest;
      destruct (processExtends E self baseUri rulesetUri severity rest a p)
        as [[o processed''] w']
  end.
  done.
Qed.

Lemma processRuleset_fuel fuel baseUri uri severity processed :
  size (documents ∖ processed) < fuel →
  (processRuleset E readOpts fuel baseUri uri severity processed).1.1 ≠ OutOfFuel.
Proof.
  revert baseUri uri severity processed.
  induction fuel as [|fuel IH]; intros baseUri uri severity processed Hsize;
    [lia|].
  simpl. destruct (findFile E _ uri) as [rulesetUri|e]; [|done].
  case_decide as Hseen; [done|].
  unfold resolveNew.
  destruct (loadRuleset E readOpts rulesetUri) as [ruleset|e] eqn:Hload; [|done].
  apply loadable in Hload.
  assert (size (documents ∖ ({[rulesetUri]} ∪ processed)) < fuel) as Hsize'.
  { assert (documents ∖ ({[rulesetUri]} ∪ processed) ⊂ documents ∖ processed)
      as Hlt.
    { split; [apply difference_mono_l, union_subseteq_r|].
      intros Hsub.
      assert (rulesetUri ∈ documents ∖ processed) as Hin
        by (by apply elem_of_difference).
      apply Hsub, elem_of_difference in Hin as [_ Hnot].
      apply Hnot, elem_of_union_l. by apply elem_of_singleton. }
    apply subset_size in Hlt. lia. }
  pose proof (processExtends_fuel (processRuleset E readOpts fuel) fuel baseUri
                rulesetUri severity (extendsEdges (file_extends ruleset))
                emptyRuleset ({[rulesetUri]} ∪ processed)
                (processRuleset_grows fuel) IH Hsize') as Hloop.
  destruct (processExtends _ _ _ _ _ _ _ _) as [[[acc|e|] processed'] w];
    simpl in *; [|done|done].
  pose proof (processOwn_returns baseUri rulesetUri severity ruleset acc) as Hown.
  by destruct (processOwn _ _ _ _ _ _ _) as [[new|e|] w'].
Qed.

End finite.

End guard.

(** C4: when the documents that load are finitely many, a call with more
    fuel than there are unvisited documents never runs out of it, cyclic
    and self-referential extends included. The visited set only grows; it
    holds the resolved identity when the call is over; a request for an
    identity already in the set returns [null] and changes nothing; a new
    identity is added to the set before the loop over its extends edges
    starts; and an edge whose resolution returned [null] leaves the
    accumulator as it was. *)
Theorem cyclic_extends_terminate (E : Env) (readOpts : option IRulesetReadOptions)
    (documents : gset string) fuel baseUri uri severity processed :
  (∀ u ruleset, loadRuleset E readOpts u = Resolved ruleset → u ∈ documents) →
  size (documents ∖ processed) < fuel →
  let out := processRuleset E readOpts fuel baseUri uri severity processed in
  out.1.1 ≠ OutOfFuel ∧
  processed ⊆ out.1.2 ∧
  (∀ rulesetUri,
     findFile E (join E [baseUri; ".."]) uri = Resolved rulesetUri →
     rulesetUri ∈ out.1.2 ∧
     (rulesetUri ∈ processed → out = (Ok None, processed, [])) ∧
     (rulesetUri ∉ processed →
      ∃ fuel', fuel = S fuel' ∧
        out = resolveNew E readOpts (processRuleset E readOpts fuel') baseUri
                rulesetUri severity ({[rulesetUri]} ∪ processed))) ∧
  (∀ self b r s extended rest acc visited visited' w,
     self r (edgeUri extended) (Some (parentSeverity s extended)) visited
       = (Ok None, visited', w) →
     processExtends E self b r s (extended :: rest) acc visited =
       let '(o, visited'', w') := processExtends E self b r s rest acc visited' in
       (o, visited'', w ++ w')).
Proof.
  intros Hload Hsize out. split; [|split; [|split]].
  - by eapply processRuleset_fuel.
  - apply processRuleset_grows.
  - intros rulesetUri Hfound. destruct fuel as [|fuel']; [lia|].
    subst out. rewrite (processRuleset_known _ _ _ _ _ _ _ rulesetUri Hfound).
    case_decide as Hseen.
    + split; [done|]. split; [done|]. done.
    + split; [|split; [done|]].
      * pose proof (resolveNew_grows E readOpts (processRuleset E readOpts fuel')
                      baseUri rulesetUri severity ({[rulesetUri]} ∪ processed)
                      (processRuleset_grows E readOpts fuel')).
        set_solver.
      * intros _. by exists fuel'.
  - intros self b r s extended rest acc visited visited' w Hnull.
    simpl. by rewrite Hnull.
Qed.

(** ** The function binder *)

Section binder.
Context (E : Env) (readOpts : option IRulesetReadOptions) (baseDir : string).

Local Abbreviation bindAll := (foldl (bindFunction E readOpts baseDir)).






(** Every entry of the table, old ones apart, was written by a
    declaration of that name, from the file found for it. *)
Lemma bindAll_entry b settled name rf :
  resolvedFunctions (bindAll b settled) !! name = Some rf →
  resolvedFunctions b !! name = Some rf ∨
  ∃ fn, fn ∈ settled ∧ fnName fn = name ∧ fn_name rf = name ∧
        fn_schema rf = fnSchema fn ∧
        findFile E baseDir (functionFile name) = Resolved (fn_source rf) ∧
        readFile E (fn_source rf) (fsOptions readOpts) = Resolved (fn_code rf).
Proof.
  revert b. induction settled as [|fn rest IH]; intros b Hrf; simpl in *; [by left|].
  destruct (IH _ Hrf) as [Hnow|(fn' & Hin & Hrest)].
  - unfold bindFunction in Hnow.
    destruct (findFile E baseDir (functionFile (fnName fn))) as [source|e]
      eqn:Hfound; simpl in Hnow; [|by left].
    destruct (readFile E source _) as [code|ex] eqn:Hread; simpl in Hnow;
      [|by left].
    destruct (decide (fnName fn = name)) as [Hname|Hname].
    + rewrite Hname, lookup_insert_eq in Hnow. injection Hnow as <-.
      right. exists fn. simpl. rewrite <- Hname.
      split; [by left|]. by repeat split.
    + rewrite lookup_insert_ne in Hnow by done. by left.
  - right. exists fn'. split; [by right|done].
Qed.



End binder.



(** ** Merge order *)

Lemma mergeRules_lookup target incoming severity name :
  mergeRules target incoming severity !! name =
    match incoming !! name with
    | Some r => Some (withSeverity severity r)
    | None => target !! name
    end.
Proof.
  unfold mergeRules. rewrite lookup_union, lookup_fmap.
  destruct (incoming !! name); simpl; [by destruct (target !! name)|].
  by rewrite (left_id None _).
Qed.

Lemma ownRules_lookup ruleset severity inherited name :
  ownRules ruleset severity inherited !! name =
    annotated (file_formats ruleset) <$>
      match file_rules ruleset ≫= (.!! name) with
      | Some own => Some (withSeverity (ownSeverity severity) own)
      | None => inherited !! name
      end.
Proof.
  unfold ownRules, annotated, mergeFormats.
  assert ((match file_rules ruleset with
           | Some own => mergeRules inherited own (ownSeverity severity)
           | None => inherited
           end) !! name =
          match file_rules ruleset ≫= (.!! name) with
          | Some own => Some (withSeverity (ownSeverity severity) own)
          | None => inherited !! name
          end) as Hown.
  { destruct (file_rules ruleset) as [own|]; simpl; [|done].
    apply mergeRules_lookup. }
  destruct (file_formats ruleset) as [formats|].
  - by rewrite lookup_fmap, Hown.
  - rewrite Hown. symmetry. apply option_fmap_id.
Qed.

Lemma processExtends_snoc (E : Env) self baseUri rulesetUri severity earlier last
    acc processed :
  processExtends E self baseUri rulesetUri severity (earlier ++ [last]) acc processed =
    match processExtends E self baseUri rulesetUri severity earlier acc processed with
    | (Ok acc', processed', w) =>
        match self rulesetUri (edgeUri last)
                (Some (parentSeverity severity last)) processed' with
        | (Ok extendedRuleset, processed'', w') =>
            (Ok match extendedRuleset with
                | Some ext =>
                    mergeExtended E baseUri acc' ext (parentSeverity severity last)
                | None => acc'
                end, processed'', w ++ w')
        | (Throw e, processed'', w') => (Throw e, processed'', w ++ w')
        | (OutOfFuel, processed'', w') => (OutOfFuel, processed'', w ++ w')
        end
    | other => other
    end.
Proof.
  revert acc processed.
  induction earlier as [|extended rest IH]; intros acc processed; simpl.
  - destruct (self _ _ _ _) as [[[ext|e|] processed'] w]; simpl;
      by rewrite ?app_nil_r.
  - destruct (self rulesetUri (edgeUri extended) _ processed)
      as [[[ext|e|] processed'] w]; [|done|done].
    rewrite IH.
    destruct (processExtends E self baseUri rulesetUri severity rest _ processed')
      as [[[acc'|e|] processed''] w']; [|done|done].
    destruct (self rulesetUri (edgeUri last) _ processed'')
      as [[[ext'|e|] processed3] w'']; by rewrite app_assoc.
Qed.

(** C5: the extends edges are resolved and merged in declaration order,
    each to its end before the next starts, and the ruleset's own rules are
    merged after all of them. So when the resolution of the last edge
    returns a ruleset holding a rule [name], the resolved ruleset has for
    [name] the ruleset's own rule when it declares one, and otherwise the
    entry that came through that last edge, written with the edge's
    effective severity, whatever the earlier edges gave under that name;
    the ruleset's [formats], when present, are then put on it. *)
Theorem later_edge_wins (E : Env) (readOpts : option IRulesetReadOptions)
    self baseUri rulesetUri severity processed ruleset earlier last name entry :
  loadRuleset E readOpts rulesetUri = Resolved ruleset →
  extendsEdges (file_extends ruleset) = earlier ++ [last] →
  let before := processExtends E self baseUri rulesetUri severity earlier
                  emptyRuleset processed in
  let through := self rulesetUri (edgeUri last)
                   (Some (parentSeverity severity last)) before.1.2 in
  let out := resolveNew E readOpts self baseUri rulesetUri severity processed in
  succeeded out.1.1 = true →
  rules (contributed through.1.1) !! name = Some entry →
  rules (contributed out.1.1) !! name =
    Some (annotated (file_formats ruleset)
            match file_rules ruleset ≫= (.!! name) with
            | Some own => withSeverity (ownSeverity severity) own
            | None => withSeverity (parentSeverity severity last) entry
            end).
Proof.
  intros Hload Hedges before through out Hok Hentry.
  subst out. unfold resolveNew in *. rewrite Hload in *.
  rewrite Hedges, processExtends_snoc in *. fold before in Hok |- *.
  subst through.
  destruct before as [[[acc|e|] processed'] w]; simpl in *; try done.
  destruct (self rulesetUri (edgeUri last) _ processed')
    as [[[[ext|]|e|] processed''] w']; simpl in *;
    try done; try (by rewrite lookup_empty in Hentry).
  set (merged := mergeExtended E baseUri acc ext (parentSeverity severity last)) in *.
  assert (ownRules ruleset severity (rules merged) !! name =
          Some (annotated (file_formats ruleset)
            match file_rules ruleset ≫= (.!! name) with
            | Some own => withSeverity (ownSeverity severity) own
            | None => withSeverity (parentSeverity severity last) entry
            end)) as Hr.
  { rewrite ownRules_lookup. subst merged. simpl.
    rewrite mergeRules_lookup, Hentry.
    by destruct (file_rules ruleset ≫= _). }
  unfold processOwn in *.
  destruct (file_functions ruleset); [|done].
  by destruct (rejection _).
Qed.

(** ** The top-level reader *)

Section reader.
Context (E : Env) (readOpts : option IRulesetReadOptions) (fuel : nat).

Lemma readEach_cons uri rest base :
  succeeded (readEach E readOpts fuel (uri :: rest) base).1 = true →
  ∃ resolvedRuleset,
    (resolveTop E readOpts fuel uri).1.1 = Ok resolvedRuleset ∧
    succeeded (readEach E readOpts fuel rest
                 (assignResolved base resolvedRuleset)).1 = true ∧
    returned (readEach E readOpts fuel (uri :: rest) base).1 =
      returned (readEach E readOpts fuel rest
                  (assignResolved base resolvedRuleset)).1.
Proof.
  simpl.
  destruct (resolveTop E readOpts fuel uri) as [[[x|e|] processed] w];
    simpl; [|done|done].
  destruct (readEach E readOpts fuel rest (assignResolved base x)) as [o w']
    eqn:Hrest.
  simpl. intros Hok. exists x. by rewrite Hrest.
Qed.



Section table.
Context {V : Type} (table : IRuleset → gmap string V).
Hypothesis table_empty : table emptyRuleset = ∅.
Hypothesis table_assign :
  ∀ base r, table (assignRuleset base r) = Object_assign (table base) (table r).

Lemma assignResolved_lookup base resolvedRuleset name :
  table (assignResolved base resolvedRuleset) !! name =
    match table (contributed (Ok resolvedRuleset)) !! name with
    | Some entry => Some entry
    | None => table base !! name
    end.
Proof.
  destruct resolvedRuleset as [r|]; simpl.
  - rewrite table_assign. unfold Object_assign. rewrite lookup_union.
    destruct (table r !! name); [by destruct (table base !! name)|].
    by rewrite (left_id None _).
  - by rewrite table_empty, lookup_empty.
Qed.

Lemma readEach_untouched uris base name :
  (∀ u, u ∈ uris →
     table (contributed (resolveTop E readOpts fuel u).1.1) !! name = None) →
  succeeded (readEach E readOpts fuel uris base).1 = true →
  table (returned (readEach E readOpts fuel uris base).1) !! name =
    table base !! name.
Proof.
  revert base. induction uris as [|uri rest IH]; intros base Hnone Hok; [done|].
  apply readEach_cons in Hok as (x & Hx & Hok & ->).
  rewrite IH; [|intros u Hu; apply Hnone; by right|done].
  rewrite assignResolved_lookup, <- Hx.
  by rewrite Hnone by left.
Qed.

Lemma readEach_last before uri after base name entry :
  succeeded (readEach E readOpts fuel (before ++ uri :: after) base).1 = true →
  table (contributed (resolveTop E readOpts fuel uri).1.1) !! name = Some entry →
  (∀ later, later ∈ after →
     table (contributed (resolveTop E readOpts fuel later).1.1) !! name = None) →
  table (returned (readEach E readOpts fuel (before ++ uri :: after) base).1)
    !! name = Some entry.
Proof.
  intros Hok Hentry Hlater. revert base Hok.
  induction before as [|u before IH]; intros base Hok; simpl app in *.
  - apply readEach_cons in Hok as (x & Hx & Hok & ->).
    rewrite readEach_untouched by done.
    by rewrite assignResolved_lookup, <- Hx, Hentry.
  - apply readEach_cons in Hok as (x & Hx & Hok & Hsame).
    rewrite Hsame. by apply IH.
Qed.

End table.

End reader.

Lemma setOrder_seen seen x uris :
  setOrder ({[x]} ∪ seen) uris = filter (λ u, u ≠ x) (setOrder seen uris).
Proof.
  revert seen. induction uris as [|uri rest IH]; intros seen; simpl; [done|].
  destruct (decide (uri = x)) as [->|Hne].
  - rewrite decide_True by (apply elem_of_union_l; by apply elem_of_singleton).
    case_decide as Hseen; [apply IH|].
    rewrite filter_cons_False by (by intros ?).
    rewrite <- IH. f_equal. apply (anti_symm (⊆)).
    + apply union_subseteq_r.
    + apply union_least; [|done]. apply union_subseteq_l.
  - case_decide as Hseen; case_decide as Hseen'.
    + apply IH.
    + exfalso. apply Hseen'. apply elem_of_union in Hseen as [Hx|?]; [|done].
      by apply elem_of_singleton in Hx.
    + exfalso. apply Hseen. by apply elem_of_union_r.
    + rewrite filter_cons_True by done. f_equal.
      rewrite <- IH. f_equal.
      rewrite !(assoc_L (∪)). f_equal. apply (comm_L (∪)).
Qed.

Lemma setOrder_elem seen uris x :
  x ∈ setOrder seen uris ↔ x ∈ uris ∧ x ∉ seen.
Proof.
  revert seen. induction uris as [|uri rest IH]; intros seen; simpl.
  - split; [by intros ?%elem_of_nil|by intros [?%elem_of_nil _]].
  - case_decide as Hseen.
    + rewrite IH, elem_of_cons. split; [naive_solver|].
      intros [[->|?] ?]; naive_solver.
    + rewrite !elem_of_cons, IH, not_elem_of_union, not_elem_of_singleton.
      split; [naive_solver|].
      intros [[->|?] ?]; [by left|].
      destruct (decide (x = uri)) as [->|?]; [by left|by right].
Qed.

Lemma setOrder_NoDup seen uris : NoDup (setOrder seen uris).
Proof.
  revert seen. induction uris as [|uri rest IH]; intros seen; simpl.
  - constructor.
  - case_decide; [apply IH|]. constructor; [|apply IH].
    rewrite setOrder_elem, not_elem_of_union, not_elem_of_singleton. naive_solver.
Qed.

(** C9: the URIs are taken in the order of their first occurrence, each
    once, and the tables of their resolutions are assigned onto the result
    in that order. So in a request that succeeds, when a URI of the list
    contributes an entry under a key and no URI after it in the list
    contributes one under that key, the returned ruleset holds that entry,
    whatever the URIs before it contributed: per key, the last URI wins.
    This holds for rules, functions and exceptions alike. *)
Theorem last_uri_wins (E : Env) (readOpts : option IRulesetReadOptions)
    (fuel : nat) (uris : Uris) before uri after :
  requested uris = before ++ uri :: after →
  succeeded (readRuleset E fuel uris readOpts).1 = true →
  let result := returned (readRuleset E fuel uris readOpts).1 in
  let own u := contributed (resolveTop E readOpts fuel u).1.1 in
  (∀ name entry,
     rules (own uri) !! name = Some entry →
     (∀ later, later ∈ after → rules (own later) !! name = None) →
     rules result !! name = Some entry) ∧
  (∀ name entry,
     functions (own uri) !! name = Some entry →
     (∀ later, later ∈ after → functions (own later) !! name = None) →
     functions result !! name = Some entry) ∧
  (∀ name entry,
     exceptions (own uri) !! name = Some entry →
     (∀ later, later ∈ after → exceptions (own later) !! name = None) →
     exceptions result !! name = Some entry) ∧
  NoDup (requested uris) ∧
  (∀ first rest, uris = ManyUris (first :: rest) →
     requested uris = first :: filter (λ u, u ≠ first) (requested (ManyUris rest))).
Proof.
  intros Hlist Hok result own. subst result own. unfold readRuleset in *.
  rewrite Hlist in Hok. rewrite Hlist.
  split; [|split; [|split; [|split]]].
  - intros name entry Hentry Hlater.
    by apply (readEach_last E readOpts fuel rules).
  - intros name entry Hentry Hlater.
    by apply (readEach_last E readOpts fuel functions).
  - intros name entry Hentry Hlater.
    by apply (readEach_last E readOpts fuel exceptions).
  - rewrite <- Hlist. destruct uris as [u|l]; simpl.
    + apply NoDup_singleton.
    + apply setOrder_NoDup.
  - intros first rest ->. rewrite <- Hlist. simpl.
    rewrite decide_False by apply not_elem_of_empty.
    by rewrite setOrder_seen.
Qed.


(** ** The concrete world *)

Lemma require_assigning (E : Env) availableModules fuel path source v st :
  evaluatedModules st !! path = None →
  availableModules !! path = Some source →
  Function_ E source = AssignExports v Finish →
  require E availableModules (S fuel) path st =
    (Ok v, set_exports path v (note_evaluation path st)).
Proof.
  intros Hcache Havail Hcode. simpl. rewrite Hcache, Havail, Hcode. simpl.
  unfold get_exports. simpl. by rewrite lookup_insert_eq.
Qed.

Lemma demo_loadRuleset readOpts uri :
  loadRuleset Demo.env readOpts uri =
    match Demo.document uri with
    | Some d => Resolved d
    | None => Rejected (Thrown "invalid ruleset")
    end.
Proof.
  unfold loadRuleset.
  change (generate Demo.env uri (read Demo.env readOpts) shouldResolve)
    with (Resolved (uri, [("./" +:+ uri +:+ ".cjs", uri)])
            : Result (string * list (string * string))).
  change (stackDepth Demo.env) with 8. cbv beta iota.
  rewrite (require_assigning Demo.env _ 7 _ uri (VStr uri)); [done| |by apply lookup_insert_eq|done].
  apply lookup_singleton_ne. discriminate.
Qed.

Lemma demo_loadable readOpts uri ruleset :
  loadRuleset Demo.env readOpts uri = Resolved ruleset → uri ∈ Demo.known.
Proof.
  rewrite demo_loadRuleset. unfold Demo.document, Demo.known.
  destruct (_ !! uri) as [d|] eqn:Hd; [|done].
  intros _. by apply elem_of_dom_2 in Hd.
Qed.






Lemma cyclic_extends_terminate_witness :
  (processRuleset Demo.env None 11 "x.yaml" "x.yaml" None ∅).1.1 ≠ OutOfFuel.
Proof.
  refine (proj1 (cyclic_extends_terminate Demo.env None Demo.known 11
                   "x.yaml" "x.yaml" None ∅ _ _)).
  - apply demo_loadable.
  - vm_compute. lia.
Defined.

(** [d.yaml] extends [e.yaml] and [c.yaml] in that order, both define [r],
    and [e.yaml] extends [c.yaml] itself: the [c.yaml] edge of [d.yaml]
    finds the identity visited and gives nothing, so the entry for [r] is
    the one of [e.yaml], the earlier edge. *)
Lemma later_edge_visited_before :
  Demo.document "d.yaml" =
    Some (Demo.extending [Plain "e.yaml"; Plain "c.yaml"] ∅) ∧
  ((Demo.document "e.yaml" ≫= file_rules) ≫= (.!! "r")) = Some Demo.rule_e ∧
  ((Demo.document "c.yaml" ≫= file_rules) ≫= (.!! "r")) = Some Demo.rule_c ∧
  rules (contributed (resolveTop Demo.env None 4 "c.yaml").1.1) !! "r" =
    Some Demo.rule_c ∧
  succeeded (readRuleset Demo.env 4 (OneUri "d.yaml") None).1 = true ∧
  rules (returned (readRuleset Demo.env 4 (OneUri "d.yaml") None).1) !! "r" =
    Some Demo.rule_e ∧
  Demo.rule_e ≠ Demo.rule_c.
Proof. repeat split; try (vm_compute; reflexivity). discriminate. Qed.

Lemma later_edge_wins_witness :
  rules (contributed (resolveNew Demo.env None (processRuleset Demo.env None 3)
                        "a.yaml" "a.yaml" None {["a.yaml"]}).1.1) !! "r" =
    Some Demo.rule_c.
Proof.
  refine (later_edge_wins Demo.env None (processRuleset Demo.env None 3)
            "a.yaml" "a.yaml" None {["a.yaml"]}
            (Demo.extending [Plain "b.yaml"; Plain "c.yaml"] ∅)
            [Plain "b.yaml"] (Plain "c.yaml") "r" Demo.rule_c _ _ _ _).
  - vm_compute. reflexivity.
  - reflexivity.
  - vm_compute. reflexivity.
  - vm_compute. reflexivity.
Defined.



Lemma read_verbatim_or_parsed_witness :
  read Demo.env None "lib/oas/schemas/schema.oas2.json" =
    Resolved (VStr "text of lib/oas/schemas/schema.oas2.json") ∧
  read Demo.env None "lib/ruleset.json" =
    Resolved (VObj [("json", VStr "text of lib/ruleset.json")]).
Proof.
  split.
  - destruct (read_verbatim_or_parsed Demo.env None
                "lib/oas/schemas/schema.oas2.json"
                "text of lib/oas/schemas/schema.oas2.json" eq_refl)
      as (_ & _ & Hraw & _).
    apply Hraw. exists "lib/". by left.
  - destruct (read_verbatim_or_parsed Demo.env None "lib/ruleset.json"
                "text of lib/ruleset.json" eq_refl)
      as (_ & _ & _ & Hparsed).
    destruct Hparsed as (_ & Hjson & _).
    + intros Hex. apply shouldResolve_excluded in Hex. vm_compute in Hex. discriminate.
    + apply Hjson. vm_compute. reflexivity.
Defined.

Lemma last_uri_wins_witness :
  rules (returned (readRuleset Demo.env 3
                     (ManyUris ["c.yaml"; "b.yaml"; "c.yaml"]) None).1) !! "r" =
    Some Demo.rule_b.
Proof.
  destruct (last_uri_wins Demo.env None 3 (ManyUris ["c.yaml"; "b.yaml"; "c.yaml"])
              ["c.yaml"] "b.yaml" []) as (Hrules & _).
  - vm_compute. reflexivity.
  - vm_compute. reflexivity.
  - apply Hrules.
    + vm_compute. reflexivity.
    + intros later Hlater. by apply elem_of_nil in Hlater.
Defined.


(** [x.yaml] extends [y.yaml] and [y.yaml] extends [x.yaml]: the request
    for [x.yaml] returns the rules of both, and the edge back to [x.yaml]
    gave nothing. *)
Example mutual_extends_resolve :
  let out := readRuleset Demo.env 3 (OneUri "x.yaml") None in
  succeeded out.1 = true ∧
  dom (rules (returned out.1)) = {["rx"; "ry"]} ∧
  (processRuleset Demo.env None 3 "y.yaml" "x.yaml" (Some "off") {["x.yaml"; "y.yaml"]})
    = (Ok None, {["x.yaml"; "y.yaml"]}, []).
Proof. repeat split; vm_compute; reflexivity. Qed.

(** * Further properties of the loader *)

Section cache.
Context (E : Env) (availableModules : gmap string string).

Lemma run_cache_kept req path code st :
  (∀ dep st0 p v, evaluatedModules st0 !! p = Some v →
                  evaluatedModules (req dep st0).2 !! p = Some v) →
  ∀ p v, p ≠ path →
    evaluatedModules st !! p = Some v →
    evaluatedModules (run req path code st).2 !! p = Some v.
Proof.
  intros Hreq p v Hne. revert st.
  induction code as [|dep k IH|k IH|w k IH|msg]; intros st Hst; simpl; auto.
  - specialize (Hreq dep st p v Hst).
    destruct (req dep st) as [[w|e|] st']; simpl in *; auto.
  - apply IH. simpl. by rewrite lookup_insert_ne.
Qed.

Lemma require_cache_kept fuel path st p v :
  evaluatedModules st !! p = Some v →
  evaluatedModules (require E availableModules fuel path st).2 !! p = Some v.
Proof.
  revert path st p v. induction fuel as [|fuel IH]; intros path st p v Hp; simpl.
  - destruct (evaluatedModules st !! path); [done|].
    by destruct (availableModules !! path).
  - destruct (evaluatedModules st !! path) as [w|] eqn:Hcache; [done|].
    destruct (availableModules !! path) as [source|]; [|done].
    assert (p ≠ path) as Hne by (intros ->; congruence).
    pose proof (run_cache_kept (require E availableModules fuel) path
                  (Function_ E source) (note_evaluation path st)
                  (λ dep st0 p0 v0, IH dep st0 p0 v0) p v Hne Hp) as Hrun.
    by destruct (run _ _ _ _) as [[[]|e|] st'].
Qed.

Lemma require_cache_missing fuel path st p :
  evaluatedModules (require E availableModules fuel path st).2 !! p = None →
  evaluatedModules st !! p = None.
Proof.
  intros Hafter. destruct (evaluatedModules st !! p) as [v|] eqn:Hp; [|done].
  apply (require_cache_kept fuel path) in Hp. congruence.
Qed.

Local Abbreviation ranOnly := (ranOnlyFrom availableModules).

Lemma run_log req path code st :
  (∀ dep st0 p v, evaluatedModules st0 !! p = Some v →
                  evaluatedModules (req dep st0).2 !! p = Some v) →
  (∀ dep st0, ∃ new, evaluations (req dep st0).2 = new ++ evaluations st0 ∧
                     ranOnly st0 new) →
  ∃ new, evaluations (run req path code st).2 = new ++ evaluations st ∧
         ranOnly st new.
Proof.
  intros Hkept Hreq. revert st.
  induction code as [|dep k IH|k IH|w k IH|msg]; intros st; simpl.
  - exists []. split; [done|]. by intros p ?%elem_of_nil.
  - destruct (Hreq dep st) as (new1 & Hlog1 & Hran1).
    pose proof (Hkept dep st) as Hkept1.
    destruct (req dep st) as [[w|e|] st']; simpl in *; [|by exists new1..].
    destruct (IH w st') as (new2 & Hlog2 & Hran2).
    exists (new2 ++ new1). rewrite Hlog2, Hlog1, app_assoc. split; [done|].
    intros p [Hp|Hp]%elem_of_app; [|by apply Hran1].
    destruct (Hran2 p Hp) as [Havail Hnone]. split; [done|].
    destruct (evaluatedModules st !! p) as [v|] eqn:Hcached; [|done].
    apply Hkept1 in Hcached. congruence.
  - apply IH.
  - destruct (IH (set_exports path w st)) as (new & Hlog & Hran).
    exists new. split; [done|].
    intros p Hp. destruct (Hran p Hp) as [Havail Hnone]. split; [done|].
    simpl in Hnone. by apply lookup_insert_None in Hnone as [? _].
  - exists []. split; [done|]. by intros p ?%elem_of_nil.
Qed.

Lemma require_log fuel path st :
  ∃ new, evaluations (require E availableModules fuel path st).2
           = new ++ evaluations st ∧
         ranOnly st new.
Proof.
  revert path st. induction fuel as [|fuel IH]; intros path st; simpl.
  - exists []. split; [|by intros p ?%elem_of_nil].
    destruct (evaluatedModules st !! path); [done|].
    by destruct (availableModules !! path).
  - destruct (evaluatedModules st !! path) as [w|] eqn:Hcache.
    { exists []. split; [done|]. by intros p ?%elem_of_nil. }
    destruct (availableModules !! path) as [source|] eqn:Havail.
    2: { exists []. split; [done|]. by intros p ?%elem_of_nil. }
    destruct (run_log (require E availableModules fuel) path
                (Function_ E source) (note_evaluation path st)
                (λ dep st0 p v, require_cache_kept fuel dep st0 p v) IH)
      as (new & Hlog & Hran).
    exists (new ++ [path]).
    split.
    + rewrite <- app_assoc. simpl.
      by destruct (run _ _ _ _) as [[[]|e|] st'].
    + intros p [Hp|Hp]%elem_of_app; [by apply Hran|].
      apply list_elem_of_singleton in Hp as ->. split; [by eexists|done].
Qed.

Lemma run_not_found_uncached req path code st q :
  (∀ dep st0 p v, evaluatedModules st0 !! p = Some v →
                  evaluatedModules (req dep st0).2 !! p = Some v) →
  (∀ dep st0, (req dep st0).1 = Throw (ModuleNotFound q) →
              evaluatedModules st0 !! q = None) →
  (run req path code st).1 = Throw (ModuleNotFound q) →
  evaluatedModules st !! q = None.
Proof.
  intros Hkept Hreq. revert st.
  induction code as [|dep k IH|k IH|w k IH|msg]; intros st; simpl; try done.
  - specialize (Hreq dep st). pose proof (Hkept dep st) as Hkept1.
    destruct (req dep st) as [[w|e|] st']; simpl in *;
      [|intros [= ->]; by apply Hreq|done].
    intros Hthrow. apply IH in Hthrow.
    destruct (evaluatedModules st !! q) as [v|] eqn:Hcached; [|done].
    apply Hkept1 in Hcached. congruence.
  - apply IH.
  - intros Hthrow. apply IH in Hthrow. simpl in Hthrow.
    by apply lookup_insert_None in Hthrow as [? _].
Qed.

Lemma require_not_found_uncached fuel path st q :
  (require E availableModules fuel path st).1 = Throw (ModuleNotFound q) →
  evaluatedModules st !! q = None.
Proof.
  revert path st. induction fuel as [|fuel IH]; intros path st; simpl.
  - destruct (evaluatedModules st !! path) eqn:Hcache; [done|].
    destruct (availableModules !! path); [done|].
    simpl. by intros [= <-].
  - destruct (evaluatedModules st !! path) eqn:Hcache; [done|].
    destruct (availableModules !! path) as [source|].
    + pose proof (run_not_found_uncached (require E availableModules fuel) path
                    (Function_ E source) (note_evaluation path st) q
                    (λ dep st0 p v, require_cache_kept fuel dep st0 p v)
                    (λ dep st0, IH dep st0)) as Hrun.
      destruct (run _ _ _ _) as [[[]|e|] st']; simpl in *;
        [done|intros [= ->]; by apply Hrun|done].
    + simpl. by intros [= <-].
Qed.

End cache.

(** X1: a request never removes or overwrites what the cache already holds:
    an identifier cached with a value before the request, the helper
    included, is cached with the same value after it, however the request
    ends. *)
Theorem cached_exports_are_kept (E : Env) availableModules fuel path st p v :
  evaluatedModules st !! p = Some v →
  evaluatedModules (require E availableModules fuel path st).2 !! p = Some v.
Proof. apply require_cache_kept. Qed.

Lemma cached_exports_are_kept_witness :
  evaluatedModules
    (require Demo.env {[ "./a.cjs" := "a" ]} 2 "./a.cjs"
       (createFakeRequire Demo.env)).2 !! create_array_cjs =
  Some (VFun "createArray").
Proof.
  apply (cached_exports_are_kept Demo.env {[ "./a.cjs" := "a" ]} 2 "./a.cjs"
           (createFakeRequire Demo.env) create_array_cjs (VFun "createArray")).
  vm_compute. reflexivity.
Defined.

(** X2: the source texts a request runs, the requested module's and those
    of the modules it requires, are generated sources whose identifiers were
    not cached when the request was made; the record of earlier evaluations
    is kept. So nothing cached is ever run again, and the helper, cached
    from the start, is never run even when the generated sources have an
    entry under its identifier. *)
Theorem only_uncached_sources_run (E : Env) availableModules fuel path st :
  ∃ new,
    evaluations (require E availableModules fuel path st).2 = new ++ evaluations st ∧
    ∀ p, p ∈ new →
      is_Some (availableModules !! p) ∧ evaluatedModules st !! p = None.
Proof. apply require_log. Qed.

(** X3: a module whose source text requires the module itself before it has
    assigned its exports is entered again at every level, whatever the
    depth allowed: the request never returns, and [processRuleset]'s load of
    a document whose entry module does so ends in the engine's
    [RangeError]. *)
Theorem self_require_never_returns (E : Env) (readOpts : option IRulesetReadOptions)
    rulesetUri id writes source k :
  generate E rulesetUri (read E readOpts) shouldResolve = Resolved (id, writes) →
  written writes !! entryModule id = Some source →
  Function_ E source = CallRequire (entryModule id) k →
  (∀ fuel st, evaluatedModules st !! entryModule id = None →
     (require E (written writes) fuel (entryModule id) st).1 = OutOfFuel) ∧
  loadRuleset E readOpts rulesetUri = Rejected RangeError.
Proof.
  intros Hgen Hsource Hcode.
  assert (∀ fuel st, evaluatedModules st !! entryModule id = None →
            (require E (written writes) fuel (entryModule id) st).1 = OutOfFuel)
    as Hloop.
  { induction fuel as [|fuel IH]; intros st Hcache; simpl;
      rewrite Hcache, Hsource; [done|].
    rewrite Hcode. simpl.
    specialize (IH (note_evaluation (entryModule id) st) Hcache).
    by destruct (require E (written writes) fuel (entryModule id) _)
      as [[v|e|] st']; simpl in *; simplify_eq. }
  split; [exact Hloop|].
  unfold loadRuleset. rewrite Hgen. fold (entryModule id).
  assert (evaluatedModules (createFakeRequire E) !! entryModule id = None) as Hnew
    by (by apply lookup_singleton_ne).
  specialize (Hloop (stackDepth E) (createFakeRequire E) Hnew).
  by destruct (require E (written writes) (stackDepth E) (entryModule id) _)
    as [[v|e|] st'].
Qed.

Lemma self_require_never_returns_witness :
  loadRuleset Loops.env None "a.yaml" = Rejected RangeError.
Proof.
  refine (proj2 (self_require_never_returns Loops.env None "a.yaml" "a.yaml"
                   [(entryModule "a.yaml", "a.yaml")] "a.yaml"
                   (λ v, AssignExports v Finish) _ _ _)).
  - reflexivity.
  - vm_compute. reflexivity.
  - reflexivity.
Defined.

(** X4: a request that returns while the module's exports cell is still
    unset (its source text assigned nothing) returns [undefined] and caches
    nothing for the module: the next request for it runs its source text
    again. *)
Theorem unassigned_module_runs_again (E : Env) availableModules fuel path st v st' :
  require E availableModules fuel path st = (Ok v, st') →
  evaluatedModules st' !! path = None →
  v = VUndefined ∧
  ∀ fuel', ∃ new,
    evaluations (require E availableModules (S fuel') path st').2
      = new ++ path :: evaluations st'.
Proof.
  intros Hfirst Hunset.
  assert (evaluatedModules st !! path = None) as Hcache.
  { apply (require_cache_missing E availableModules fuel path).
    by rewrite Hfirst. }
  assert (∃ source, availableModules !! path = Some source) as [source Havail].
  { destruct fuel; simpl in Hfirst; rewrite Hcache in Hfirst;
      destruct (availableModules !! path); by eauto. }
  split.
  - destruct fuel; simpl in Hfirst; rewrite Hcache, Havail in Hfirst; [done|].
    destruct (run _ _ _ _) as [[[]|e|] st'']; try done.
    injection Hfirst as <- <-. unfold get_exports. by rewrite Hunset.
  - intros fuel'. simpl. rewrite Hunset, Havail.
    destruct (run_log availableModules (require E availableModules fuel') path
                (Function_ E source) (note_evaluation path st')
                (λ dep st0 p w, require_cache_kept E availableModules fuel' dep st0 p w)
                (require_log E availableModules fuel'))
      as (new & Hlog & _).
    exists new. by destruct (run _ _ _ _) as [[[]|e|] st''].
Qed.

Lemma unassigned_module_runs_again_witness :
  ∃ new,
    evaluations
      (require Loops.env {[ "./q.cjs" := "quiet.yaml" ]} 1 "./q.cjs"
         {| evaluatedModules := evaluatedModules (createFakeRequire Loops.env);
            evaluations := ["./q.cjs"] |}).2
    = new ++ ["./q.cjs"; "./q.cjs"].
Proof.
  refine (proj2 (unassigned_module_runs_again Loops.env
                   {[ "./q.cjs" := "quiet.yaml" ]} 1 "./q.cjs"
                   (createFakeRequire Loops.env) VUndefined _ _ _) 0).
  - vm_compute. reflexivity.
  - vm_compute. reflexivity.
Defined.

(** X5: whenever a request ends in the error built by [require]'s last
    branch, for the requested identifier or for one a module required on
    the way, the identifier it names is not a key of the generated sources
    and was not cached when the request was made; in a loader state it is
    therefore not the helper's identifier either. *)
Theorem not_found_names_unknown_module (E : Env) availableModules fuel path st q :
  consistent E availableModules st →
  (require E availableModules fuel path st).1 = Throw (ModuleNotFound q) →
  availableModules !! q = None ∧
  evaluatedModules st !! q = None ∧
  q ≠ create_array_cjs.
Proof.
  intros [Hhelper _] Hthrow.
  pose proof (require_not_found_uncached E availableModules fuel path st q Hthrow)
    as Hcache.
  split; [by eapply require_not_found_origin|]. split; [done|].
  intros ->. congruence.
Qed.

Lemma not_found_names_unknown_module_witness :
  ({[ "./a.cjs" := "a.yaml" ]} : gmap string string) !! entryModule "a.yaml" = None.
Proof.
  refine (proj1 (not_found_names_unknown_module Loops.env
                   {[ "./a.cjs" := "a.yaml" ]} 2 "./a.cjs"
                   (createFakeRequire Loops.env) (entryModule "a.yaml")
                   (createFakeRequire_consistent Loops.env _) _)).
  vm_compute. reflexivity.
Defined.

(** * Further properties of the function binder *)

Section settling.
Context (E : Env) (readOpts : option IRulesetReadOptions) (baseDir : string).

Local Abbreviation bindAll := (foldl (bindFunction E readOpts baseDir)).

Lemma bindAll_warnings b settled :
  warnings (bindAll b settled) =
    warnings b ++ omap (unreadable E readOpts baseDir) settled.
Proof.
  revert b. induction settled as [|fn rest IH]; intros b; simpl.
  - by rewrite app_nil_r.
  - rewrite IH. unfold bindFunction, unreadable.
    destruct (findFile E baseDir (functionFile (fnName fn))) as [source|e]; [|done].
    destruct (readFile E source (fsOptions readOpts)) as [code|ex]; simpl; [done|].
    by rewrite <- app_assoc.
Qed.

Lemma bindAll_rejection b settled :
  rejection (bindAll b settled) =
    match rejection b with
    | Some e => Some e
    | None => head (omap (unlocated E baseDir) settled)
    end.
Proof.
  revert b. induction settled as [|fn rest IH]; intros b; simpl.
  - by destruct (rejection b).
  - rewrite IH. unfold bindFunction, unlocated.
    destruct (findFile E baseDir (functionFile (fnName fn))) as [source|e]; simpl.
    + by destruct (readFile E source (fsOptions readOpts)).
    + by destruct (rejection b).
Qed.

Lemma bindAll_other b settled name :
  (∀ fn, fn ∈ settled → fnName fn ≠ name) →
  resolvedFunctions (bindAll b settled) !! name = resolvedFunctions b !! name.
Proof.
  revert b. induction settled as [|fn rest IH]; intros b Hother; simpl; [done|].
  rewrite IH by (intros fn' Hfn'; apply Hother; by right).
  unfold bindFunction.
  destruct (findFile E baseDir (functionFile (fnName fn))) as [source|e]; [|done].
  destruct (readFile E source (fsOptions readOpts)) as [code|ex]; simpl; [|done].
  apply lookup_insert_ne, Hother. by left.
Qed.

Lemma entryOf_same_name fn fn' :
  fnName fn' = fnName fn →
  entryOf E readOpts baseDir fn = None → entryOf E readOpts baseDir fn' = None.
Proof.
  unfold entryOf. intros ->.
  destruct (findFile E baseDir (functionFile (fnName fn))) as [source|e]; [|done].
  by destruct (readFile E source (fsOptions readOpts)).
Qed.

Lemma bindAll_last before fn after :
  (∀ fn', fn' ∈ after → fnName fn' ≠ fnName fn) →
  resolvedFunctions (bindFunctions E readOpts baseDir (before ++ fn :: after))
    !! fnName fn = entryOf E readOpts baseDir fn.
Proof.
  intros Hafter. unfold bindFunctions. rewrite foldl_app. simpl.
  rewrite bindAll_other by done.
  destruct (entryOf E readOpts baseDir fn) as [rf|] eqn:Hentry.
  - unfold bindFunction, entryOf in *.
    destruct (findFile E baseDir (functionFile (fnName fn))) as [source|e]; [|done].
    destruct (readFile E source (fsOptions readOpts)) as [code|ex]; [|done].
    simpl. rewrite lookup_insert_eq. congruence.
  - assert (resolvedFunctions (bindFunction E readOpts baseDir
              (bindAll {| resolvedFunctions := ∅; warnings := []; rejection := None |}
                 before) fn) !! fnName fn =
            resolvedFunctions
              (bindAll {| resolvedFunctions := ∅; warnings := []; rejection := None |}
                 before) !! fnName fn) as ->.
    { unfold bindFunction, entryOf in *.
      destruct (findFile E baseDir (functionFile (fnName fn))) as [source|e]; [|done].
      by destruct (readFile E source (fsOptions readOpts)). }
    destruct (resolvedFunctions _ !! fnName fn) as [rf|] eqn:Hold; [|done].
    apply bindAll_entry in Hold
      as [Hempty|(fn' & _ & Hname & _ & _ & Hfound & Hread)].
    + simpl in Hempty. by rewrite lookup_empty in Hempty.
    + unfold entryOf in Hentry. rewrite Hfound, Hread in Hentry. done.
Qed.

Lemma bindFunctions_declared settled fn :
  NoDup (fnName <$> settled) →
  fn ∈ settled →
  resolvedFunctions (bindFunctions E readOpts baseDir settled) !! fnName fn =
    entryOf E readOpts baseDir fn.
Proof.
  intros Hnodup Hin.
  apply list_elem_of_split in Hin as (before & after & ->).
  apply bindAll_last. intros fn' Hfn' Hname.
  rewrite fmap_app, fmap_cons in Hnodup.
  apply NoDup_app in Hnodup as (_ & _ & Hnodup).
  apply NoDup_cons in Hnodup as [Hnotin _].
  apply Hnotin. rewrite <- Hname. by apply list_elem_of_fmap_2.
Qed.

Lemma bindFunctions_undeclared settled name :
  name ∉ fnName <$> settled →
  resolvedFunctions (bindFunctions E readOpts baseDir settled) !! name = None.
Proof.
  intros Hnotin. unfold bindFunctions. rewrite bindAll_other; [done|].
  intros fn Hfn <-. apply Hnotin. by apply list_elem_of_fmap_2.
Qed.

End settling.

(** X6: the warnings of the binder are exactly the warnings of the
    declarations whose file was found and could not be read, one for each
    and in the order in which they settled; a declaration whose file is read,
    or whose lookup fails, writes nothing to the console. *)
Theorem one_warning_per_unreadable_function (E : Env)
    (readOpts : option IRulesetReadOptions) (baseDir : string)
    (settled : list FunctionDeclaration) :
  warnings (bindFunctions E readOpts baseDir settled) =
    omap (λ fn,
      match findFile E baseDir ("./" +:+ fnName fn +:+ ".js") with
      | Resolved source =>
          match readFile E source (fsOptions readOpts) with
          | Rejected ex =>
              Some ("Function '" +:+ fnName fn +:+ "' could not be loaded: "
                      +:+ message ex)
          | Resolved _ => None
          end
      | Rejected _ => None
      end) settled.
Proof. unfold bindFunctions. by rewrite bindAll_warnings. Qed.

(** X7: the binding is rejected exactly when the lookup of some declared
    function's file fails, and the error it is rejected with is that of the
    first declaration, in settling order, whose lookup failed; failures of
    [readFile] never reject it. *)
Theorem first_failed_lookup_rejects (E : Env)
    (readOpts : option IRulesetReadOptions) (baseDir : string)
    (settled : list FunctionDeclaration) :
  rejection (bindFunctions E readOpts baseDir settled) =
    head (omap (λ fn,
      match findFile E baseDir ("./" +:+ fnName fn +:+ ".js") with
      | Rejected e => Some e
      | Resolved _ => None
      end) settled).
Proof. unfold bindFunctions. by rewrite bindAll_rejection. Qed.



(** X9: when the declared names are pairwise different, the order in which
    the reads settle does not matter: any two orders give the same function
    table, the same warnings up to their order, and both reject or neither
    does. *)
Theorem settling_order_is_irrelevant (E : Env)
    (readOpts : option IRulesetReadOptions) (baseDir : string)
    (decls settled : list FunctionDeclaration) :
  NoDup (fnName <$> decls) →
  settled ≡ₚ decls →
  resolvedFunctions (bindFunctions E readOpts baseDir settled) =
    resolvedFunctions (bindFunctions E readOpts baseDir decls) ∧
  warnings (bindFunctions E readOpts baseDir settled) ≡ₚ
    warnings (bindFunctions E readOpts baseDir decls) ∧
  (rejection (bindFunctions E readOpts baseDir settled) = None ↔
   rejection (bindFunctions E readOpts baseDir decls) = None).
Proof.
  intros Hnodup Hperm.
  assert (NoDup (fnName <$> settled)) as Hnodup' by (by rewrite Hperm).
  split; [|split].
  - apply map_eq. intros name.
    destruct (decide (name ∈ fnName <$> decls)) as [Hin|Hnotin].
    + apply list_elem_of_fmap in Hin as (fn & -> & Hfn).
      rewrite !bindFunctions_declared; try done. by rewrite Hperm.
    + rewrite !bindFunctions_undeclared; try done. by rewrite Hperm.
  - unfold bindFunctions. rewrite !bindAll_warnings. simpl. by rewrite Hperm.
  - unfold bindFunctions. rewrite !bindAll_rejection. simpl.
    assert (∀ l : list Exn, head l = None ↔ l = []) as Hhead
      by (intros [|??]; naive_solver).
    rewrite !Hhead.
    assert (omap (unlocated E baseDir) settled ≡ₚ omap (unlocated E baseDir) decls)
      as Homap by (by rewrite Hperm).
    split; intros Hnil; rewrite Hnil in Homap.
    + by apply Permutation_nil_l in Homap.
    + by apply Permutation_nil_r in Homap.
Qed.

Lemma settling_order_is_irrelevant_witness :
  resolvedFunctions (bindFunctions Demo.env None "dir" [FnName "f2"; FnName "f1"]) =
  resolvedFunctions (bindFunctions Demo.env None "dir" [FnName "f1"; FnName "f2"]).
Proof.
  refine (proj1 (settling_order_is_irrelevant Demo.env None "dir"
                   [FnName "f1"; FnName "f2"] [FnName "f2"; FnName "f1"] _ _)).
  - simpl. apply NoDup_cons. split; [|apply NoDup_singleton].
    intros Hin. apply list_elem_of_singleton in Hin. discriminate.
  - apply Permutation_swap.
Defined.

(** * Further properties of the resolver *)

Lemma processExtends_append (E : Env) self baseUri rulesetUri severity first second
    acc processed :
  processExtends E self baseUri rulesetUri severity (first ++ second) acc processed =
    match processExtends E self baseUri rulesetUri severity first acc processed with
    | (Ok acc', processed', w) =>
        let '(o, processed'', w') :=
          processExtends E self baseUri rulesetUri severity second acc' processed' in
        (o, processed'', w ++ w')
    | other => other
    end.
Proof.
  revert acc processed.
  induction first as [|extended rest IH]; intros acc processed; simpl.
  - by destruct (processExtends E self baseUri rulesetUri severity second acc processed)
      as [[o processed'] w].
  - destruct (self rulesetUri (edgeUri extended) _ processed)
      as [[[ext|e|] processed'] w]; [|done|done].
    rewrite IH.
    destruct (processExtends E self baseUri rulesetUri severity rest _ processed')
      as [[[acc'|e|] processed''] w']; [|done|done].
    destruct (processExtends E self baseUri rulesetUri severity second acc' processed'')
      as [[o processed3] w'']. by rewrite app_assoc.
Qed.

(** X10: the edges are resolved from left to right, each from the
    accumulator and the visited set the ones before it left, and the
    warnings are concatenated in that order; and an edge whose resolution
    throws ends the loop with that error: the edges after it are not
    resolved, whatever they are. *)
Theorem edges_resolve_in_sequence (E : Env) self baseUri rulesetUri severity
    first extended second acc processed :
  processExtends E self baseUri rulesetUri severity (first ++ second) acc processed =
    match processExtends E self baseUri rulesetUri severity first acc processed with
    | (Ok acc', processed', w) =>
        let '(o, processed'', w') :=
          processExtends E self baseUri rulesetUri severity second acc' processed' in
        (o, processed'', w ++ w')
    | other => other
    end ∧
  ∀ acc' processed' w e processed'' w',
    processExtends E self baseUri rulesetUri severity first acc processed
      = (Ok acc', processed', w) →
    self rulesetUri (edgeUri extended)
         (Some (parentSeverity severity extended)) processed'
      = (Throw e, processed'', w') →
    processExtends E self baseUri rulesetUri severity
      (first ++ extended :: second) acc processed = (Throw e, processed'', w ++ w').
Proof.
  split; [apply processExtends_append|].
  intros acc' processed' w e processed'' w' Hfirst Hthrow.
  rewrite processExtends_append, Hfirst. simpl. by rewrite Hthrow.
Qed.

Lemma edges_resolve_in_sequence_witness :
  processExtends Demo.env (processRuleset Demo.env None 3) "a.yaml" "a.yaml" None
    ([Plain "b.yaml"] ++ Plain "missing.yaml" :: [Plain "c.yaml"]) emptyRuleset
    {["a.yaml"]} =
  (Throw (Demo.notFound "missing.yaml"), {["b.yaml"; "a.yaml"]}, [] ++ []).
Proof.
  refine (proj2 (edges_resolve_in_sequence Demo.env (processRuleset Demo.env None 3)
                   "a.yaml" "a.yaml" None [Plain "b.yaml"] (Plain "missing.yaml")
                   [Plain "c.yaml"] emptyRuleset {["a.yaml"]})
            _ _ _ _ _ _ _ _).
  - vm_compute. reflexivity.
  - vm_compute. reflexivity.
Defined.

(** X11: once the inherited severity is defined, the severities written on
    the extends edges have no effect: the loop does what it would do if
    every edge were the bare locator. *)
Theorem inherited_severity_overrides_edges (E : Env) self baseUri rulesetUri
    (callerSeverity : FileRulesetSeverity) extendeds acc processed :
  processExtends E self baseUri rulesetUri (Some callerSeverity) extendeds acc processed =
  processExtends E self baseUri rulesetUri (Some callerSeverity)
    (plainEdge <$> extendeds) acc processed.
Proof.
  revert acc processed.
  induction extendeds as [|extended rest IH]; intros acc processed; simpl; [done|].
  assert (parentSeverity (Some callerSeverity) extended = callerSeverity) as ->
    by (by destruct extended).
  destruct (self rulesetUri (edgeUri extended) _ processed)
    as [[[ext|e|] processed'] w]; [|done|done].
  by rewrite IH.
Qed.

Lemma processExtends_recommended (E : Env) self baseUri rulesetUri extendeds
    acc processed :
  Forall (λ extended, extended = plainEdge extended) extendeds →
  processExtends E self baseUri rulesetUri None extendeds acc processed =
  processExtends E self baseUri rulesetUri (Some "recommended") extendeds acc processed.
Proof.
  intros Hplain. revert acc processed.
  induction Hplain as [|extended rest Hextended _ IH]; intros acc processed;
    simpl; [done|].
  assert (parentSeverity None extended = "recommended") as ->
    by (by rewrite Hextended).
  assert (parentSeverity (Some "recommended") extended = "recommended") as ->
    by (by destruct extended).
  destruct (self rulesetUri (edgeUri extended) _ processed)
    as [[[ext|e|] processed'] w]; [|done|done].
  by rewrite IH.
Qed.

(** X12: for a document none of whose extends edges carries a severity,
    resolving it with no inherited severity is resolving it with the
    inherited severity [recommended]: same result, same visited set, same
    warnings. *)
Theorem undefined_severity_is_recommended (E : Env)
    (readOpts : option IRulesetReadOptions) self baseUri rulesetUri processed :
  (∀ ruleset, loadRuleset E readOpts rulesetUri = Resolved ruleset →
     Forall (λ extended, extended = plainEdge extended)
            (extendsEdges (file_extends ruleset))) →
  resolveNew E readOpts self baseUri rulesetUri None processed =
  resolveNew E readOpts self baseUri rulesetUri (Some "recommended") processed.
Proof.
  intros Hplain. unfold resolveNew.
  destruct (loadRuleset E readOpts rulesetUri) as [ruleset|e]; [|done].
  rewrite processExtends_recommended by (by apply Hplain).
  by destruct (processExtends _ _ _ _ _ _ _ _) as [[[acc|e|] processed'] w].
Qed.

Lemma undefined_severity_is_recommended_witness :
  resolveNew Demo.env None (processRuleset Demo.env None 3) "a.yaml" "a.yaml"
    None {["a.yaml"]} =
  resolveNew Demo.env None (processRuleset Demo.env None 3) "a.yaml" "a.yaml"
    (Some "recommended") {["a.yaml"]}.
Proof.
  apply (undefined_severity_is_recommended Demo.env None).
  intros ruleset. rewrite demo_loadRuleset.
  change (Demo.document "a.yaml")
    with (Some (Demo.extending [Plain "b.yaml"; Plain "c.yaml"] ∅)).
  intros [= <-]. simpl. by repeat constructor.
Defined.

Lemma processRuleset_null (E : Env) (readOpts : option IRulesetReadOptions)
    fuel baseUri uri severity processed :
  (processRuleset E readOpts fuel baseUri uri severity processed).1.1 = Ok None →
  ∃ rulesetUri,
    findFile E (join E [baseUri; ".."]) uri = Resolved rulesetUri ∧
    rulesetUri ∈ processed.
Proof.
  destruct fuel as [|fuel]; simpl; [done|].
  destruct (findFile E _ uri) as [rulesetUri|e]; [|done].
  case_decide as Hseen; [by exists rulesetUri|].
  unfold resolveNew.
  destruct (loadRuleset E readOpts rulesetUri) as [ruleset|e]; [|done].
  destruct (processExtends _ _ _ _ _ _ _ _) as [[[acc|e|] processed'] w];
    [|done|done].
  by destruct (processOwn _ _ _ _ _ _ _) as [[new|e|] w'].
Qed.

(** X13: [processRuleset] returns [null] for no other reason than the cycle
    guard: when it does, the locator was found and its identity was in the
    visited set already, and the call has left that set as it was and
    written nothing. *)
Theorem null_only_for_visited (E : Env) (readOpts : option IRulesetReadOptions)
    fuel baseUri uri severity processed :
  (processRuleset E readOpts fuel baseUri uri severity processed).1.1 = Ok None →
  (∃ rulesetUri,
     findFile E (join E [baseUri; ".."]) uri = Resolved rulesetUri ∧
     rulesetUri ∈ processed) ∧
  processRuleset E readOpts fuel baseUri uri severity processed
    = (Ok None, processed, []).
Proof.
  intros Hnull. split; [by eapply processRuleset_null|].
  destruct (processRuleset_null E readOpts fuel baseUri uri severity processed Hnull)
    as (rulesetUri & Hfound & Hseen).
  destruct fuel as [|fuel]; [done|].
  simpl. rewrite Hfound. by rewrite decide_True.
Qed.

Lemma null_only_for_visited_witness :
  processRuleset Demo.env None 3 "y.yaml" "x.yaml" (Some "off") {["x.yaml"; "y.yaml"]}
    = (Ok None, {["x.yaml"; "y.yaml"]}, []).
Proof.
  refine (proj2 (null_only_for_visited Demo.env None 3 "y.yaml" "x.yaml"
                   (Some "off") {["x.yaml"; "y.yaml"]} _)).
  vm_compute. reflexivity.
Defined.

(** X14: a top-level URI never resolves to [null], because its visited set
    starts empty: the [continue] of line 40 is never taken, and every URI of
    a request that succeeds has contributed a ruleset. *)
Theorem top_level_is_never_null (E : Env) (readOpts : option IRulesetReadOptions)
    (fuel : nat) (uri : string) :
  (resolveTop E readOpts fuel uri).1.1 ≠ Ok None.
Proof.
  intros Hnull. apply processRuleset_null in Hnull as (rulesetUri & _ & Hseen).
  by apply not_elem_of_empty in Hseen.
Qed.

(** * Further properties of the reader *)

Lemma setOrder_append seen first second :
  setOrder seen (first ++ second) =
    setOrder seen first ++ setOrder (seen ∪ list_to_set first) second.
Proof.
  revert seen. induction first as [|uri rest IH]; intros seen; simpl.
  - by rewrite (right_id_L ∅ (∪)).
  - case_decide as Hseen.
    + rewrite IH. do 2 f_equal.
      apply (anti_symm (⊆)).
      * apply union_least; [apply union_subseteq_l|].
        etrans; [|apply union_subseteq_r]. apply union_subseteq_r.
      * apply union_least; [apply union_subseteq_l|].
        apply union_least; [|apply union_subseteq_r].
        etrans; [|apply union_subseteq_l]. by apply singleton_subseteq_l.
    + simpl. rewrite IH. do 3 f_equal.
      by rewrite (comm_L (∪) {[uri]} seen), (assoc_L (∪)).
Qed.

(** X15: a URI that occurs again later in the requested array is resolved
    once, at its first occurrence: the later occurrence changes neither the
    result nor the warnings. And a single string is the array of that
    string. *)
Theorem repeated_uri_is_resolved_once (E : Env) (fuel : nat)
    (readOpts : option IRulesetReadOptions) first uri rest :
  uri ∈ first →
  readRuleset E fuel (ManyUris (first ++ uri :: rest)) readOpts =
    readRuleset E fuel (ManyUris (first ++ rest)) readOpts ∧
  readRuleset E fuel (OneUri uri) readOpts =
    readRuleset E fuel (ManyUris [uri]) readOpts.
Proof.
  intros Hin. split.
  - unfold readRuleset, requested. rewrite !setOrder_append. simpl.
    rewrite decide_True; [done|].
    apply elem_of_union_r. by apply elem_of_list_to_set.
  - unfold readRuleset, requested. simpl.
    by rewrite decide_False by apply not_elem_of_empty.
Qed.

Lemma repeated_uri_is_resolved_once_witness :
  readRuleset Demo.env 3 (ManyUris (["c.yaml"; "b.yaml"] ++ "c.yaml" :: [])) None =
  readRuleset Demo.env 3 (ManyUris (["c.yaml"; "b.yaml"] ++ [])) None.
Proof.
  refine (proj1 (repeated_uri_is_resolved_once Demo.env 3 None
                   ["c.yaml"; "b.yaml"] "c.yaml" [] _)).
  apply list_elem_of_here.
Defined.

Lemma written_snoc writes w :
  written (writes ++ [w]) = <[w.1 := w.2]> (written writes).
Proof. unfold written. by rewrite foldl_app. Qed.

Lemma written_lookup writes target :
  written writes !! target = snd <$> last (filter (λ w, w.1 = target) writes).
Proof.
  induction writes as [|w writes IH] using rev_ind; [done|].
  rewrite written_snoc, filter_app.
  destruct (decide (w.1 = target)) as [<-|Hne].
  - rewrite lookup_insert_eq, filter_cons_True by done.
    by rewrite filter_nil, last_snoc.
  - rewrite lookup_insert_ne, filter_cons_False by done.
    by rewrite filter_nil, app_nil_r.
Qed.

(** X16: the object that collects the generated modules holds, under each
    target, the content of the last [write] to that target, and has no entry
    for a target that was never written. *)
Theorem last_write_to_a_target_wins (writes : list (string * string))
    (target : string) :
  written writes !! target = snd <$> last (filter (λ w, w.1 = target) writes).
Proof. apply written_lookup. Qed.

Lemma require_unknown (E : Env) availableModules fuel path st :
  evaluatedModules st !! path = None →
  availableModules !! path = None →
  require E availableModules fuel path st = (Throw (ModuleNotFound path), st).
Proof. intros Hcache Hnone. destruct fuel; simpl; by rewrite Hcache, Hnone. Qed.

(** X17: when [generate] has written no module under the entry identifier
    [./<id>.cjs], loading the document is rejected with the loader's error
    naming that identifier, and the validator is never consulted. *)
Theorem missing_entry_module_is_rejected (E : Env)
    (readOpts : option IRulesetReadOptions) rulesetUri id writes :
  generate E rulesetUri (read E readOpts) shouldResolve = Resolved (id, writes) →
  "./" +:+ id +:+ ".cjs" ∉ writes.*1 →
  loadRuleset E readOpts rulesetUri =
    Rejected (ModuleNotFound ("./" +:+ id +:+ ".cjs")).
Proof.
  intros Hgen Hmissing. unfold loadRuleset. rewrite Hgen.
  assert (written writes !! ("./" +:+ id +:+ ".cjs") = None) as Hnone.
  { rewrite written_lookup.
    destruct (last (filter _ writes)) as [w|] eqn:Hlast; [|done].
    exfalso. apply Hmissing.
    apply last_Some in Hlast as [l' Hl'].
    assert (w ∈ filter (λ w0, w0.1 = "./" +:+ id +:+ ".cjs") writes) as Hw.
    { rewrite Hl'. apply elem_of_app. right. by left. }
    apply list_elem_of_filter in Hw as [<- Hw]. by apply list_elem_of_fmap_2. }
  assert (evaluatedModules (createFakeRequire E) !! ("./" +:+ id +:+ ".cjs") = None)
    as Hcache by (by apply lookup_singleton_ne).
  by rewrite (require_unknown E _ _ _ _ Hcache Hnone).
Qed.

Lemma missing_entry_module_is_rejected_witness :
  loadRuleset Loops.silent None "a.yaml" =
    Rejected (ModuleNotFound "./a.yaml.cjs").
Proof.
  refine (missing_entry_module_is_rejected Loops.silent None "a.yaml" "a.yaml" [] _ _).
  - reflexivity.
  - apply not_elem_of_nil.
Defined.

Section console.
Context (E : Env) (readOpts : option IRulesetReadOptions).





End console.


